(** * markut: marker log to video chunks

    A shallow embedding of [markut.go] and the properties of its timestamp
    codec, its marker parser, its highlight deriver and its single-chunk
    subcommand.

    Conventions of the embedding:
    - a Go [int] is a [Z] kept in the signed 64-bit range; every arithmetic
      operation of the source is followed by [wrap], Go's two's-complement
      wrap-around;
    - a Go [string] is a [string] of 8-bit characters;
    - a function that may panic returns a [result]; [os.Exit] and standard
      output are modelled for the subcommand only. *)

From Stdlib Require Import ZArith List String Ascii Bool Lia Sorted.
Import ListNotations.

#[local] Open Scope string_scope.
#[local] Open Scope Z_scope.

(* ================================================================== *)
(** ** Go's [int] *)

Module GoInt.

Definition min_int : Z := - 2 ^ 63.
Definition max_int : Z := 2 ^ 63 - 1.

(** Values of type [int]. *)
Definition in_range (z : Z) : Prop := min_int <= z <= max_int.

(** Two's-complement wrap-around of a mathematical result. *)
Definition wrap (z : Z) : Z := (z + 2 ^ 63) mod 2 ^ 64 - 2 ^ 63.

Definition add (a b : Z) : Z := wrap (a + b).
Definition sub (a b : Z) : Z := wrap (a - b).
Definition mul (a b : Z) : Z := wrap (a * b).
Definition neg (a : Z) : Z := wrap (- a).
(** Go's [/] and [%] truncate toward zero. *)
Definition quo (a b : Z) : Z := wrap (Z.quot a b).
Definition rem (a b : Z) : Z := Z.rem a b.

End GoInt.

(* ================================================================== *)
(** ** Panics and results *)

(** The [error] values the program can meet.  [ErrSyntax] and [ErrRange]
    are the two [*strconv.NumError]s; the others come from the operating
    system and are opaque to the program. *)
Inductive GoError : Type :=
| ErrSyntax (input : string)
| ErrRange (input : string)
| ErrOpen (path : string)
| ErrRead
| ErrExec (status : Z).

(** The value a panic carries. *)
Inductive PanicValue : Type :=
| PanicString (msg : string)
| PanicError (err : GoError)
| IndexOutOfRange (index len : Z).

Inductive result (A : Type) : Type :=
| Ok (a : A)
| Panic (v : PanicValue).
Arguments Ok {A} a.
Arguments Panic {A} v.

Definition bind {A B} (r : result A) (k : A -> result B) : result B :=
  match r with
  | Ok a => k a
  | Panic v => Panic v
  end.

Notation "x <- r ;; k" := (bind r (fun x => k))
  (at level 61, r at next level, right associativity).

Definition is_ok {A} (r : result A) : bool :=
  match r with Ok _ => true | Panic _ => false end.

(** [panic_if_err] applied to the pair a Go call returns. *)
Definition panic_if_err {A} (r : A + GoError) : result A :=
  match r with
  | inl a => Ok a
  | inr err => Panic (PanicError err)
  end.

(* ================================================================== *)
(** ** Library functions: [strconv.Atoi], [fmt]'s [%d] and [%02d],
       [strings.Split] *)

Module GoLib.

Definition byte_val (c : ascii) : Z := Z.of_N (N_of_ascii c).
Definition byte_of (z : Z) : ascii := ascii_of_N (Z.to_N (z mod 256)).

(** [ch -= '0'] on a byte. *)
Definition digit_of_byte (c : ascii) : Z := (byte_val c - 48) mod 256.
(** [byte('0' + u)]. *)
Definition byte_of_digit (u : Z) : ascii := byte_of (48 + u).

(** The digit loop of [strconv.ParseUint(s, 10, 64)]: a byte that is not
    a digit is a syntax error, a value above [2^64 - 1] a range error,
    whichever comes first from the left. *)
Inductive NumFault : Type := Syntax | Range.

Fixpoint parse_digits (n : Z) (s : string) : Z + NumFault :=
  match s with
  | EmptyString => inl n
  | String c s' =>
      let d := digit_of_byte c in
      if 9 <? d then inr Syntax
      else
        let n1 := n * 10 + d in
        if 2 ^ 64 <=? n1 then inr Range else parse_digits n1 s'
  end.

(** [strconv.Atoi].  The fast path of the library (fewer than 19 bytes)
    computes the same value as [ParseInt(s, 10, 0)] on the strings it
    accepts and fails on the same strings, so one definition serves for
    both. *)
Definition Atoi (s0 : string) : Z + GoError :=
  match s0 with
  | EmptyString => inr (ErrSyntax s0)
  | String c rest =>
      let neg := Ascii.eqb c "-" in
      let s := if neg || Ascii.eqb c "+" then rest else s0 in
      match s with
      | EmptyString => inr (ErrSyntax s0)
      | _ =>
          match parse_digits 0 s with
          | inr Syntax => inr (ErrSyntax s0)
          | inr Range => inr (ErrRange s0)
          | inl un =>
              if negb neg && (2 ^ 63 <=? un) then inr (ErrRange s0)
              else if neg && (2 ^ 63 <? un) then inr (ErrRange s0)
              else inl (if neg then - un else un)
          end
      end
  end.

(** The digits of an unsigned value, written right to left in front of
    [buf] as [fmt]'s [fmtInteger] does.  Twenty digits are enough for a
    64-bit value. *)
Fixpoint write_digits (fuel : nat) (u : Z) (buf : string) : string :=
  match fuel with
  | O => buf
  | S fuel' =>
      if 10 <=? u
      then write_digits fuel' (u / 10) (String (byte_of_digit (u mod 10)) buf)
      else String (byte_of_digit u) buf
  end.

Fixpoint zeros (n : nat) : string :=
  match n with
  | O => EmptyString
  | S n' => String "0" (zeros n')
  end.

(** [fmt.Sprintf] of one integer under [%d] ([width = 0]) or [%0<width>d]:
    the digits are padded with zeros up to the width, and a minus sign
    takes one place of the width. *)
Definition fmt_int (width : nat) (z : Z) : string :=
  let negative := z <? 0 in
  let u := Z.abs z in
  let digits := write_digits 20 u EmptyString in
  let prec := if negative then Nat.pred width else width in
  let padded := zeros (prec - String.length digits) ++ digits in
  if negative then String "-" padded else padded.

Definition fmt_d : Z -> string := fmt_int 0.
Definition fmt_02d : Z -> string := fmt_int 2.

(** [strings.Split(s, sep)] for a separator of one byte. *)
Fixpoint Split (s : string) (sep : ascii) : list string :=
  match s with
  | EmptyString => [EmptyString]
  | String c s' =>
      if Ascii.eqb c sep then EmptyString :: Split s' sep
      else
        match Split s' sep with
        | h :: t => String c h :: t
        | [] => [String c EmptyString]
        end
  end.

End GoLib.
Import GoLib.

(* ================================================================== *)
(** ** Timestamp codec *)

Definition tsToSecs (ts : string) : result Z :=
  let comps := Split ts ":" in
  match comps with
  | [c0; c1; c2] =>
      hh <- panic_if_err (Atoi c0) ;;
      mm <- panic_if_err (Atoi c1) ;;
      ss <- panic_if_err (Atoi c2) ;;
      Ok (GoInt.add (GoInt.add (GoInt.mul (60 * 60) hh) (GoInt.mul 60 mm)) ss)
  | _ => Panic (PanicString "Expected 3 components in the timestamp")
  end.

Definition secsToTs (secs : Z) : string :=
  let hh := GoInt.quo (GoInt.quo secs 60) 60 in
  let mm := GoInt.rem (GoInt.quo secs 60) 60 in
  let ss := GoInt.rem secs 60 in
  fmt_02d hh ++ ":" ++ fmt_02d mm ++ ":" ++ fmt_02d ss.

(* ================================================================== *)
(** ** Chunks and the marker parser *)

Record Chunk : Type := mkChunk {
  Start : Z;
  End : Z;
  Ignored : list Z;
  Name : string
}.

Definition Duration (chunk : Chunk) (end_ : Z) : result Z :=
  if end_ <? Start chunk
  then Panic (PanicString "Assertion Failed: Incorrect end")
  else Ok (GoInt.sub end_ (Start chunk)).

(** What one call of [r.Read()] returns before [io.EOF]: a record or an
    error of the CSV reader.  The reader itself is outside the program;
    the parser is given the sequence of its answers. *)
Definition ReadResult : Type := (list string + GoError)%type.

(** A marker as the parser sees it: the timestamp with the delay added,
    and whether the record is an ignore-marker. *)
Definition Marker : Type := (Z * bool)%type.

(** The variables of the loop of [loadChunksFromFile]; [chunkCurrent] is
    the pointer that is [nil] when no chunk is open. *)
Record LoadState : Type := mkLoadState {
  chunks : list Chunk;
  chunkCurrent : option Chunk
}.

Definition len {A} (l : list A) : Z := Z.of_nat (List.length l).

(** Lines 74-82: the record is checked and decoded. *)
Definition readMarker (delay : Z) (record : list string) : result Marker :=
  if len record <=? 0
  then Panic (PanicString "CSV record must have at least one field")
  else
    timestamp <- panic_if_err (Atoi (nth 0 record "")) ;;
    let timestamp := GoInt.add timestamp delay in
    let ignored := (1 <? len record) && String.eqb (nth 1 record "") "ignore" in
    Ok (timestamp, ignored).

(** Lines 84-101: the two-state machine. *)
Definition markerStep (st : LoadState) (m : Marker) : result LoadState :=
  let (timestamp, ignored) := m in
  match chunkCurrent st with
  | None =>
      if ignored
      then Panic (PanicString ("Out of Chunk Ignored Marker " ++ fmt_d timestamp))
      else Ok (mkLoadState (chunks st) (Some (mkChunk timestamp 0 [] "")))
  | Some cur =>
      if ignored
      then Ok (mkLoadState (chunks st)
                 (Some (mkChunk (Start cur) (End cur)
                          (Ignored cur ++ [timestamp])%list (Name cur))))
      else
        let name := "chunk-" ++ fmt_02d (len (chunks st)) ++ ".mp4" in
        Ok (mkLoadState
              (chunks st ++ [mkChunk (Start cur) timestamp (Ignored cur) name])%list
              None)
  end.

Definition loadStep (delay : Z) (st : LoadState) (rd : ReadResult)
  : result LoadState :=
  record <- panic_if_err rd ;;
  m <- readMarker delay record ;;
  markerStep st m.

Fixpoint loadLoop (delay : Z) (st : LoadState) (reads : list ReadResult)
  : result LoadState :=
  match reads with
  | [] => Ok st
  | rd :: rest => st' <- loadStep delay st rd ;; loadLoop delay st' rest
  end.

Definition unclosed_msg : string :=
  "Unclosed chunk detected! Please make sure that there is an even amount of not ignored markers".

(** [loadChunksFromFile] once the file is open. *)
Definition loadChunksFromReader (reads : list ReadResult) (delay : Z)
  : result (list Chunk) :=
  st <- loadLoop delay (mkLoadState [] None) reads ;;
  match chunkCurrent st with
  | Some _ => Panic (PanicString unclosed_msg)
  | None => Ok (chunks st)
  end.

(* ================================================================== *)
(** ** Highlights *)

Record Highlight : Type := mkHighlight {
  timestamp : string;
  message : string
}.

(** The inner loop of [highlightChunks], over [chunk.Ignored]. *)
Fixpoint highlightIgnored (secs : Z) (chunk : Chunk) (ignored : list Z)
    (highlights : list Highlight) : result (list Highlight) :=
  match ignored with
  | [] => Ok highlights
  | t :: rest =>
      d <- Duration chunk t ;;
      highlightIgnored secs chunk rest
        (highlights ++ [mkHighlight (secsToTs (GoInt.add secs d)) "ignored"])%list
  end.

(** The outer loop, with the two variables [secs] and [highlights]. *)
Fixpoint highlightLoop (cs : list Chunk) (secs : Z)
    (highlights : list Highlight) : result (list Highlight) :=
  match cs with
  | [] => Ok highlights
  | chunk :: rest =>
      hs <- highlightIgnored secs chunk (Ignored chunk) highlights ;;
      d <- Duration chunk (End chunk) ;;
      let hs := (hs ++ [mkHighlight (secsToTs (GoInt.add secs d)) "cut"])%list in
      d' <- Duration chunk (End chunk) ;;
      highlightLoop rest (GoInt.add secs d') hs
  end.

Definition highlightChunks (cs : list Chunk) : result (list Highlight) :=
  highlightLoop cs 0 [].

(* ================================================================== *)
(** ** The [chunk] subcommand *)

(** A run of a subcommand: what it printed on standard output and how it
    ended. *)
Inductive Outcome (A : Type) : Type :=
| Returned (a : A)
| Exited (code : Z)
| Panicked (v : PanicValue).
Arguments Returned {A} a.
Arguments Exited {A} code.
Arguments Panicked {A} v.

Definition Run (A : Type) : Type := (string * Outcome A)%type.

Definition ret {A} (a : A) : Run A := ("", Returned a).

Definition andThen {A B} (m : Run A) (k : A -> Run B) : Run B :=
  match m with
  | (out, Returned a) => let (out', o) := k a in (out ++ out', o)
  | (out, Exited code) => (out, Exited code)
  | (out, Panicked v) => (out, Panicked v)
  end.

Notation "x <~ m ;; k" := (andThen m (fun x => k))
  (at level 61, m at next level, right associativity).
Notation "m ;;; k" := (andThen m (fun _ => k))
  (at level 61, right associativity).

Definition Print (s : string) : Run unit := (s, Returned tt).
Definition Exit {A} (code : Z) : Run A := ("", Exited code).
Definition lift {A} (r : result A) : Run A :=
  match r with
  | Ok a => ret a
  | Panic v => ("", Panicked v)
  end.

Definition nl : string := String (ascii_of_nat 10) "".

(** [chunks[i]] with Go's bounds check. *)
Definition index {A} (l : list A) (i : Z) : result A :=
  if (i <? 0) || (len l <=? i) then Panic (IndexOutOfRange i (len l))
  else
    match nth_error l (Z.to_nat i) with
    | Some a => Ok a
    | None => Panic (IndexOutOfRange i (len l))
    end.

(** The values of the flags after [chunkFlag.Parse]. *)
Record ChunkFlags : Type := mkChunkFlags {
  csvPtr : string;
  inputPtr : string;
  delayPtr : Z;
  chunkPtr : Z;
  yPtr : bool
}.

Section Subcommands.

(** The world outside the program: the file a path opens, as the answers
    of a CSV reader over it, and the exit of the [ffmpeg] process. *)
Variable open : string -> list ReadResult + GoError.
Variable ffmpeg : list string -> option GoError.

Definition loadChunksFromFile (path : string) (delay : Z)
  : result (list Chunk) :=
  reads <- panic_if_err (open path) ;;
  loadChunksFromReader reads delay.

(** Returns the [error] of [cmd.Run()], [None] for [nil].  What the
    [ffmpeg] process writes itself is not part of the run. *)
Definition ffmpegCutChunk (inputPath : string) (chunk : Chunk) (y : bool)
  : result (option GoError) :=
  let args := (if y then ["-y"] else [])%list in
  let args := (args ++ ["-ss"; fmt_d (Start chunk)])%list in
  let args := (args ++ ["-i"; inputPath])%list in
  let args := (args ++ ["-c"; "copy"])%list in
  d <- Duration chunk (End chunk) ;;
  let args := (args ++ ["-t"; fmt_d d])%list in
  let args := (args ++ [Name chunk])%list in
  Ok (ffmpeg args).

(** The usage text on standard output; the flag defaults go to the
    flag set's own output, standard error. *)
Definition subUsage (subName : string) : Run unit :=
  Print ("Usage: markut " ++ subName ++ " [OPTIONS]" ++ nl) ;;;
  Print ("OPTIONS:" ++ nl).

Fixpoint printIgnored (c : Chunk) (ignored : list Z) : Run unit :=
  match ignored with
  | [] => ret tt
  | t :: rest =>
      d <~ lift (Duration c t) ;;
      Print ("  " ++ secsToTs d ++ nl) ;;;
      printIgnored c rest
  end.

Definition chunkSubcommand (flags : ChunkFlags) : Run unit :=
  if String.eqb (csvPtr flags) ""
  then subUsage "chunk" ;;;
       Print ("ERROR: No -csv file is provided" ++ nl) ;;;
       Exit 1
  else if String.eqb (inputPtr flags) ""
  then subUsage "chunk" ;;;
       Print ("ERROR: No -input file is provided" ++ nl) ;;;
       Exit 1
  else
    chunks <~ lift (loadChunksFromFile (csvPtr flags) (delayPtr flags)) ;;
    (if len chunks <? chunkPtr flags
     then Print ("ERROR: " ++ fmt_d (chunkPtr flags)
                 ++ " is incorrect chunk number. There is only "
                 ++ fmt_d (len chunks) ++ " of them." ++ nl) ;;;
          Exit 1
     else ret tt) ;;;
    c <~ lift (index chunks (chunkPtr flags)) ;;
    err <~ lift (ffmpegCutChunk (inputPtr flags) c (yPtr flags)) ;;
    match err with
    | Some e => lift (Panic (PanicError e))
    | None =>
        Print (Name c ++ " is rendered!" ++ nl) ;;;
        if 0 <? len (Ignored c)
        then Print ("Ignored timestamps:" ++ nl) ;;;
             printIgnored c (Ignored c)
        else ret tt
    end.

End Subcommands.

(* ================================================================== *)
(** * Definitions used to state the properties *)

(** ** Decimal strings *)

(** The value of a string of digits read from the left, starting from
    [n]. *)
Fixpoint dec_val (n : Z) (s : string) : Z :=
  match s with
  | EmptyString => n
  | String c s' => dec_val (n * 10 + digit_of_byte c) s'
  end.

Fixpoint all_digits (s : string) : Prop :=
  match s with
  | EmptyString => True
  | String c s' => digit_of_byte c <= 9 /\ all_digits s'
  end.

(** The characters [fmt_int] writes: digits and the minus sign. *)
Definition num_char (c : ascii) : Prop := digit_of_byte c <= 9 \/ c = "-"%char.

Fixpoint num_chars (s : string) : Prop :=
  match s with
  | EmptyString => True
  | String c s' => num_char c /\ num_chars s'
  end.

(** ** The encoder of the specification *)

(** The encoder in the words of the specification: [HH = seconds/3600]
    with the division that truncates toward zero, [MM = (seconds/60) mod 60],
    [SS = seconds mod 60], each written in decimal and padded with zeros to
    at least two digits. *)
Definition pad2 (n : Z) : string :=
  let ds := fmt_d n in zeros (2 - String.length ds) ++ ds.

Definition encode_spec (seconds : Z) : string :=
  pad2 (Z.quot seconds 3600) ++ ":" ++ pad2 (Z.quot seconds 60 mod 60)
  ++ ":" ++ pad2 (seconds mod 60).

(** ** Marker streams *)

(** The marker a read yields under a delay, when the read and the record
    are both good. *)
Definition markerOfRead (delay : Z) (rd : ReadResult) : option Marker :=
  match rd with
  | inl record =>
      match readMarker delay record with
      | Ok m => Some m
      | Panic _ => None
      end
  | inr _ => None
  end.

(** The marker stream of a sequence of reads, all of them good. *)
Fixpoint markersOf (delay : Z) (reads : list ReadResult)
  : option (list Marker) :=
  match reads with
  | [] => Some []
  | rd :: rest =>
      match markerOfRead delay rd, markersOf delay rest with
      | Some m, Some ms => Some (m :: ms)
      | _, _ => None
      end
  end.

(** The two-state machine run over a marker stream. *)
Fixpoint runMarkers (st : LoadState) (ms : list Marker) : result LoadState :=
  match ms with
  | [] => Ok st
  | m :: rest => st' <- markerStep st m ;; runMarkers st' rest
  end.

(** Whether a chunk is open, and the number of non-ignore markers the
    machine has consumed to reach a state. *)
Definition is_open (st : LoadState) : bool :=
  match chunkCurrent st with Some _ => true | None => false end.

Definition consumed (st : LoadState) : nat :=
  (2 * List.length (chunks st) + (if is_open st then 1 else 0))%nat.

Definition countNonIgnore (ms : list Marker) : nat :=
  List.length (filter (fun m => negb (snd m)) ms).

(** No ignore-marker stands before the first non-ignore marker: the
    stream does not begin with one. *)
Definition noLeadingIgnore (ms : list Marker) : bool :=
  match ms with
  | (_, true) :: _ => false
  | _ => true
  end.

(** Every ignore-marker has an odd number of non-ignore markers before
    it, [before] of them standing in front of the stream. *)
Fixpoint ignoresInsideFrom (before : nat) (ms : list Marker) : bool :=
  match ms with
  | [] => true
  | (_, true) :: rest => Nat.odd before && ignoresInsideFrom before rest
  | (_, false) :: rest => ignoresInsideFrom (S before) rest
  end.

Definition ignoresInsideChunks (ms : list Marker) : bool :=
  ignoresInsideFrom 0 ms.

(** The timestamps never decrease, starting at or above [lo]. *)
Fixpoint nondecreasingFrom (lo : Z) (ts : list Z) : bool :=
  match ts with
  | [] => true
  | t :: rest => (lo <=? t) && nondecreasingFrom t rest
  end.

Definition nondecreasing (ts : list Z) : bool :=
  match ts with
  | [] => true
  | t :: rest => nondecreasingFrom t rest
  end.

Definition outOfChunk (t : Z) : PanicValue :=
  PanicString ("Out of Chunk Ignored Marker " ++ fmt_d t).

Definition unclosed : PanicValue := PanicString unclosed_msg.

(** ** Chunks and highlights *)

(** The names of the finalized chunks, in emission order. *)
Definition names_ok (cs : list Chunk) : Prop :=
  forall i c, nth_error cs i = Some c ->
              Name c = "chunk-" ++ fmt_02d (Z.of_nat i) ++ ".mp4".

(** [end >= start], and every ignored timestamp between the two. *)
Definition chunk_ordered (c : Chunk) : Prop :=
  Start c <= End c /\ Forall (fun t => Start c <= t <= End c) (Ignored c).

(** [start <= end], and [start <= t] for every ignored timestamp. *)
Definition chunk_forward (c : Chunk) : Prop :=
  Start c <= End c /\ Forall (fun t => Start c <= t) (Ignored c).

(** The sum of [end - start] over the chunks, in the integers. *)
Definition sumDurations (cs : list Chunk) : Z :=
  fold_right (fun c acc => (End c - Start c) + acc) 0 cs.

(** The last highlight whose message is ["cut"]. *)
Definition lastCut (hs : list Highlight) : option Highlight :=
  find (fun h => String.eqb (message h) "cut") (rev hs).

(** The chunk of one delay against the chunk of another, [plus] being the
    addition that relates their timestamps. *)
Definition delayed (plus : Z -> Z -> Z) (d : Z) (c0 cd : Chunk) : Prop :=
  Start cd = plus (Start c0) d
  /\ End cd = plus (End c0) d
  /\ Ignored cd = map (fun t => plus t d) (Ignored c0).

(** The state of the parser when every timestamp so far is at most [lo]:
    the finalized chunks are ordered, and the open chunk starts at or
    below [lo] with its ignored timestamps between the two. *)
Definition bounded_open (lo : Z) (st : LoadState) : Prop :=
  Forall chunk_ordered (chunks st)
  /\ match chunkCurrent st with
     | Some cur =>
         Start cur <= lo /\ Forall (fun t => Start cur <= t <= lo) (Ignored cur)
     | None => True
     end.

(** The states of two runs of the parser over the same reads, one with
    delay 0 and one with delay [d]. *)
Definition open_delayed (d : Z) (c0 cd : Chunk) : Prop :=
  Start cd = GoInt.add (Start c0) d
  /\ Ignored cd = map (fun t => GoInt.add t d) (Ignored c0).

Definition state_delayed (d : Z) (st0 std : LoadState) : Prop :=
  Forall2 (delayed GoInt.add d) (chunks st0) (chunks std)
  /\ match chunkCurrent st0, chunkCurrent std with
     | None, None => True
     | Some c0, Some cd => open_delayed d c0 cd
     | _, _ => False
     end.

Definition result_delayed {A} (R : A -> A -> Prop) (r0 rd : result A) : Prop :=
  match r0, rd with
  | Ok a0, Ok ad => R a0 ad
  | Panic _, Panic _ => True
  | _, _ => False
  end.

(** The highlights of a chunk sequence on which [Duration] does not
    panic, [secs] being the time elapsed before it. *)
Fixpoint highlightsFrom (secs : Z) (cs : list Chunk) : list Highlight :=
  match cs with
  | [] => []
  | c :: rest =>
      let d := GoInt.sub (End c) (Start c) in
      (map (fun t => mkHighlight (secsToTs (GoInt.add secs (GoInt.sub t (Start c))))
                       "ignored") (Ignored c)
       ++ mkHighlight (secsToTs (GoInt.add secs d)) "cut"
       :: highlightsFrom (GoInt.add secs d) rest)%list
  end.

(** Adding [d] to the timestamps of a chunk stays within [int]. *)
Definition delay_fits (d : Z) (c : Chunk) : Prop :=
  GoInt.in_range (Start c + d)
  /\ GoInt.in_range (End c + d)
  /\ Forall (fun t => GoInt.in_range (t + d)) (Ignored c).

(** ** The statements of the specification that the program does not meet *)

(** Parser totality as the specification words it. *)
Definition totality_as_stated (reads : list ReadResult) : Prop :=
  forall ms,
    markersOf 0 reads = Some ms ->
    Nat.even (countNonIgnore ms) = true ->
    noLeadingIgnore ms = true ->
    exists cs, loadChunksFromReader reads 0 = Ok cs
               /\ List.length cs = (countNonIgnore ms / 2)%nat.

(** The worked example of the specification. *)
Definition example_rows : list ReadResult :=
  [inl ["10"; ""]; inl ["20"; ""]; inl ["25"; "ignore"]; inl ["30"; ""]].

Definition example_as_stated : Prop :=
  loadChunksFromReader example_rows 0
  = Ok [mkChunk 10 20 [] "chunk-00"; mkChunk 20 30 [25] "chunk-01"]
  /\ (cs <- loadChunksFromReader example_rows 0 ;; highlightChunks cs)
     = Ok [mkHighlight "00:00:15" "ignored"; mkHighlight "00:00:20" "cut"].

(** Chunk names as the specification words them. *)
Definition names_as_stated (reads : list ReadResult) (delay : Z) : Prop :=
  forall cs i c,
    loadChunksFromReader reads delay = Ok cs ->
    nth_error cs i = Some c ->
    Name c = "chunk-" ++ fmt_02d (Z.of_nat i).

(** Parser rejection as the specification words it. *)
Definition rejection_as_stated (reads : list ReadResult) : Prop :=
  forall ms,
    markersOf 0 reads = Some ms ->
    (forall t rest, ms = (t, true) :: rest ->
       loadChunksFromReader reads 0 = Panic (outOfChunk t))
    /\ (Nat.odd (countNonIgnore ms) = true ->
        loadChunksFromReader reads 0 = Panic unclosed).

(** Delay invariance, for an addition [plus] on timestamps. *)
Definition delay_invariance (plus : Z -> Z -> Z)
    (reads : list ReadResult) (d : Z) : Prop :=
  is_ok (loadChunksFromReader reads d) = is_ok (loadChunksFromReader reads 0)
  /\ forall cs0, loadChunksFromReader reads 0 = Ok cs0 ->
       exists csd, loadChunksFromReader reads d = Ok csd
                   /\ Forall2 (delayed plus d) cs0 csd.

(** The chunk invariant as the specification words it. *)
Definition order_as_stated (reads : list ReadResult) (delay : Z) : Prop :=
  forall cs, loadChunksFromReader reads delay = Ok cs -> Forall chunk_ordered cs.

(** The highlight timeline sum, [total] giving the value the last cut is
    to decode to. *)
Definition timeline_sum (total : list Chunk -> Z) (cs : list Chunk) : Prop :=
  exists hs h,
    highlightChunks cs = Ok hs
    /\ lastCut hs = Some h
    /\ tsToSecs (timestamp h) = Ok (total cs).

Definition timeline_as_stated (cs : list Chunk) : Prop :=
  cs <> [] -> Forall chunk_forward cs -> timeline_sum sumDurations cs.

(** The single-chunk path as the specification words it, for the run
    [r] of the subcommand on [n] chunks. *)
Definition reports_count (r : Run unit) (index n : Z) : Prop :=
  r = ("ERROR: " ++ fmt_d index ++ " is incorrect chunk number. There is only "
       ++ fmt_d n ++ " of them." ++ nl, Exited 1).

(** A marker file of three chunks, and an [ffmpeg] that succeeds. *)
Definition three_chunk_rows : list ReadResult :=
  [inl ["10"]; inl ["20"]; inl ["30"]; inl ["40"]; inl ["50"]; inl ["60"]].

Definition three_chunk_file (path : string) : list ReadResult + GoError :=
  inl three_chunk_rows.

Definition ffmpeg_succeeds (args : list string) : option GoError := None.

(* ================================================================== *)
(** * The other subcommands *)

(** ** [inspect] *)

(** The loop that prints the highlights, one line each. *)
Fixpoint printHighlights (highlights : list Highlight) : Run unit :=
  match highlights with
  | [] => ret tt
  | highlight :: rest =>
      Print (timestamp highlight ++ " - " ++ message highlight ++ nl) ;;;
      printHighlights rest
  end.

Module Inspect.

(** The values of the flags after [inspectFlag.Parse]. *)
Record Flags : Type := mkFlags {
  csvPtr : string;
  delayPtr : Z
}.

End Inspect.

Section InspectSubcommand.

Variable open : string -> list ReadResult + GoError.

Definition inspectSubcommand (flags : Inspect.Flags) : Run unit :=
  if String.eqb (Inspect.csvPtr flags) ""
  then subUsage "inspect" ;;;
       Print ("ERROR: No -csv file is provided" ++ nl) ;;;
       Exit 1
  else
    chunks <~ lift (loadChunksFromFile open (Inspect.csvPtr flags)
                      (Inspect.delayPtr flags)) ;;
    Print ("Highlights:" ++ nl) ;;;
    highlights <~ lift (highlightChunks chunks) ;;
    printHighlights highlights.

End InspectSubcommand.

(** ** [final] *)

(** A run that also writes files: the text on standard output, the files
    written with their contents, and how the run ended. *)
Definition Act (A : Type) : Type :=
  (string * list (string * string) * Outcome A)%type.

Definition done {A} (a : A) : Act A := ("", [], Returned a).

Definition actThen {A B} (m : Act A) (k : A -> Act B) : Act B :=
  match m with
  | (out, files, Returned a) =>
      match k a with
      | (out', files', o) => (out ++ out', (files ++ files')%list, o)
      end
  | (out, files, Exited code) => (out, files, Exited code)
  | (out, files, Panicked v) => (out, files, Panicked v)
  end.

Notation "x <-- m ;; k" := (actThen m (fun x => k))
  (at level 61, m at next level, right associativity).
Notation "m >> k" := (actThen m (fun _ => k))
  (at level 61, right associativity).

Definition ofRun {A} (r : Run A) : Act A :=
  let (out, o) := r in (out, [], o).

Definition say (s : string) : Act unit := ofRun (Print s).
Definition orPanic {A} (r : result A) : Act A := ofRun (lift r).
Definition write (path content : string) : Act unit :=
  ("", [(path, content)], Returned tt).

Module Final.

(** The values of the flags after [finalFlag.Parse]. *)
Record Flags : Type := mkFlags {
  csvPtr : string;
  inputPtr : string;
  delayPtr : Z;
  yPtr : bool
}.

End Final.

(** The line of a chunk in the list that [ffmpeg] concatenates. *)
Definition concatLine (chunk : Chunk) : string :=
  "file '" ++ Name chunk ++ "'" ++ nl.

Definition joinLines (lines : list string) : string :=
  fold_right append "" lines.

Definition concatArgs (listPath outputPath : string) (y : bool) : list string :=
  let args := (if y then ["-y"] else [])%list in
  let args := (args ++ ["-f"; "concat"])%list in
  let args := (args ++ ["-safe"; "0"])%list in
  let args := (args ++ ["-i"; listPath])%list in
  let args := (args ++ ["-c"; "copy"])%list in
  (args ++ [outputPath])%list.

Section FinalSubcommand.

(** The world outside the program: the file a path opens, whether
    [os.Create] succeeds on a path, the exit of the [ffmpeg] process and
    the text of an error. *)
Variable open : string -> list ReadResult + GoError.
Variable create : string -> option GoError.
Variable ffmpeg : list string -> option GoError.
Variable errorText : GoError -> string.

Definition ffmpegConcatChunks (listPath outputPath : string) (y : bool)
  : result unit :=
  match ffmpeg (concatArgs listPath outputPath y) with
  | Some err => Panic (PanicError err)
  | None => Ok tt
  end.

Definition ffmpegGenerateConcatList (chunks : list Chunk) (outputPath : string)
  : Act unit :=
  match create outputPath with
  | Some err => orPanic (Panic (PanicError err))
  | None => write outputPath (joinLines (map concatLine chunks))
  end.

(** The loop of [finalSubcommand] that cuts the chunks. *)
Fixpoint cutChunks (inputPath : string) (y : bool) (chunks : list Chunk)
  : Act unit :=
  match chunks with
  | [] => done tt
  | chunk :: rest =>
      err <-- orPanic (ffmpegCutChunk ffmpeg inputPath chunk y) ;;
      (match err with
       | Some e => say ("WARNING: Failed to cut chunk: " ++ errorText e)
       | None => done tt
       end) >>
      cutChunks inputPath y rest
  end.

Definition finalSubcommand (flags : Final.Flags) : Act unit :=
  if String.eqb (Final.csvPtr flags) ""
  then ofRun (subUsage "final" ;;;
              Print ("ERROR: No -csv file is provided" ++ nl) ;;;
              Exit 1)
  else if String.eqb (Final.inputPtr flags) ""
  then ofRun (subUsage "final" ;;;
              Print ("ERROR: No -input file is provided" ++ nl) ;;;
              Exit 1)
  else
    chunks <-- orPanic (loadChunksFromFile open (Final.csvPtr flags)
                      (Final.delayPtr flags)) ;;
    cutChunks (Final.inputPtr flags) (Final.yPtr flags) chunks >>
    let ourlistPath := "ourlist.txt" in
    ffmpegGenerateConcatList chunks ourlistPath >>
    orPanic (ffmpegConcatChunks ourlistPath "output.mp4" (Final.yPtr flags)) >>
    say ("Highlights:" ++ nl) >>
    highlights <-- orPanic (highlightChunks chunks) ;;
    ofRun (printHighlights highlights).

End FinalSubcommand.

(** ** [main] *)

Definition usage : Run unit :=
  Print ("Usage: markut <SUBCOMMAND> [OPTIONS]" ++ nl) ;;;
  Print ("SUBCOMMANDS:" ++ nl) ;;;
  Print ("    final      Render the final video" ++ nl) ;;;
  Print ("    chunk      Render specific chunk of the final video" ++ nl) ;;;
  Print ("    inspect    Inspect markers in the CSV file" ++ nl).

Section Main.

(** The three subcommands applied to [os.Args[2:]], each with the parsing
    of its own flags. *)
Variable finalCmd chunkCmd inspectCmd : list string -> Act unit.

Definition main (Args : list string) : Act unit :=
  if len Args <? 2
  then ofRun (usage ;;;
              Print ("ERROR: No subcommand is provided" ++ nl) ;;;
              Exit 1)
  else
    let sub := nth 1 Args "" in
    if String.eqb sub "final" then finalCmd (skipn 2 Args)
    else if String.eqb sub "chunk" then chunkCmd (skipn 2 Args)
    else if String.eqb sub "inspect" then inspectCmd (skipn 2 Args)
    else ofRun (usage ;;;
                Print ("Unknown subcommand " ++ sub ++ nl) ;;;
                Exit 1).

End Main.

(* ================================================================== *)
(** * Definitions used to state further properties *)

(** The number of occurrences of a character in a string. *)
Fixpoint countChar (c : ascii) (s : string) : nat :=
  match s with
  | EmptyString => 0
  | String c' s' => ((if Ascii.eqb c' c then 1 else 0) + countChar c s')%nat
  end.

(** The markers of a chunk: its start, its ignored timestamps, its end. *)
Definition chunkMarkers (c : Chunk) : list Marker :=
  ((Start c, false) :: map (fun t => (t, true)) (Ignored c)
   ++ [(End c, false)])%list.

(** The record that spells a marker. *)
Definition recordOfMarker (m : Marker) : ReadResult :=
  inl [fmt_d (fst m); if snd m then "ignore" else ""].

(** The timestamps of a chunk are values of [int]. *)
Definition chunk_in_range (c : Chunk) : Prop :=
  GoInt.in_range (Start c) /\ GoInt.in_range (End c)
  /\ Forall GoInt.in_range (Ignored c).

(** Two chunks with the same timestamps, whatever their names. *)
Definition sameTimes (c c' : Chunk) : Prop :=
  Start c = Start c' /\ End c = End c' /\ Ignored c = Ignored c'.

Definition isCut (h : Highlight) : bool := String.eqb (message h) "cut".

Definition totalIgnored (cs : list Chunk) : nat :=
  List.length (flat_map Ignored cs).

Definition assertionFailed : PanicValue :=
  PanicString "Assertion Failed: Incorrect end".

(** The lines [printHighlights] prints. *)
Definition highlightLines (hs : list Highlight) : string :=
  joinLines (map (fun h => timestamp h ++ " - " ++ message h ++ nl) hs).


(** What [cutChunks] prints: a warning for each chunk whose cut fails. *)
Definition cutWarnings (ffmpeg : list string -> option GoError)
    (errorText : GoError -> string) (inputPath : string) (y : bool)
    (cs : list Chunk) : string :=
  joinLines
    (map (fun c =>
            match ffmpegCutChunk ffmpeg inputPath c y with
            | Ok (Some e) => "WARNING: Failed to cut chunk: " ++ errorText e
            | _ => ""
            end) cs).

(** The markers that led the parser to a state: those of the finalized
    chunks, then the start and the ignored timestamps of the open one. *)
Definition pendingMarkers (st : LoadState) : list Marker :=
  match chunkCurrent st with
  | Some cur => (Start cur, false) :: map (fun t => (t, true)) (Ignored cur)
  | None => []
  end.

Definition seenMarkers (st : LoadState) : list Marker :=
  (flat_map chunkMarkers (chunks st) ++ pendingMarkers st)%list.

(** The text of [usage]. *)
Definition usageText : string := fst usage.

(** An [ffmpeg] that concatenates and fails every cut, and one that cuts
    and fails to concatenate. *)
Definition ffmpeg_only_concatenates (args : list string) : option GoError :=
  if existsb (String.eqb "concat") args then None else Some (ErrExec 1).

Definition ffmpeg_only_cuts (args : list string) : option GoError :=
  if existsb (String.eqb "concat") args then Some (ErrExec 1) else None.

(** The timestamps of a chunk in the order of the file. *)
Definition chunkTimes (c : Chunk) : list Z :=
  (Start c :: Ignored c ++ [End c])%list.

(* ================================================================== *)
(** * Properties *)

(** ** Arithmetic of [int] *)

Module GoIntFacts.
Import GoInt.

Lemma wrap_small z : in_range z -> wrap z = z.
Proof.
  unfold wrap, in_range, min_int, max_int. intros H.
  rewrite Z.mod_small; lia.
Qed.

Lemma wrap_in_range z : in_range (wrap z).
Proof.
  unfold wrap, in_range, min_int, max_int.
  pose proof (Z.mod_pos_bound (z + 2 ^ 63) (2 ^ 64)). lia.
Qed.

Lemma wrap_add_l a b : wrap (wrap a + b) = wrap (a + b).
Proof.
  unfold wrap. f_equal.
  replace ((a + 2 ^ 63) mod 2 ^ 64 - 2 ^ 63 + b + 2 ^ 63)
    with ((a + 2 ^ 63) mod 2 ^ 64 + b) by lia.
  rewrite Zplus_mod_idemp_l. f_equal. lia.
Qed.

Lemma wrap_add_r a b : wrap (a + wrap b) = wrap (a + b).
Proof. rewrite (Z.add_comm a), wrap_add_l. f_equal. lia. Qed.

Lemma add_0_r z : in_range z -> add z 0 = z.
Proof. intros H. unfold add. rewrite Z.add_0_r. now apply wrap_small. Qed.

Lemma add_exact a b : in_range (a + b) -> add a b = a + b.
Proof. apply wrap_small. Qed.

Lemma sub_exact a b : in_range (a - b) -> sub a b = a - b.
Proof. apply wrap_small. Qed.

End GoIntFacts.
Import GoIntFacts.

(** ** Decimal strings *)

Module GoLibFacts.



Lemma digit_of_byte_nonneg c : 0 <= digit_of_byte c.
Proof. unfold digit_of_byte. apply Z.mod_pos_bound. lia. Qed.

Lemma digit_of_byte_of_digit u :
  0 <= u <= 9 -> digit_of_byte (byte_of_digit u) = u.
Proof.
  intros H. unfold digit_of_byte, byte_of_digit, byte_of, byte_val.
  rewrite (Z.mod_small (48 + u)) by lia.
  rewrite N_ascii_embedding by lia.
  rewrite Z2N.id by lia.
  replace (48 + u - 48) with u by lia. apply Z.mod_small. lia.
Qed.

Lemma dec_val_app s1 : forall n s2,
  dec_val n (s1 ++ s2) = dec_val (dec_val n s1) s2.
Proof. induction s1 as [|c s1 IH]; intros n s2; simpl; auto. Qed.

Lemma all_digits_app s1 : forall s2,
  all_digits s1 -> all_digits s2 -> all_digits (s1 ++ s2).
Proof. induction s1 as [|c s1 IH]; simpl; intuition. Qed.

Lemma dec_val_ge s : forall n, 0 <= n -> n <= dec_val n s.
Proof.
  induction s as [|c s IH]; intros n Hn; simpl; [lia|].
  pose proof (digit_of_byte_nonneg c).
  specialize (IH (n * 10 + digit_of_byte c)). lia.
Qed.

Lemma parse_digits_dec s : forall n,
  0 <= n -> all_digits s -> dec_val n s < 2 ^ 64 ->
  parse_digits n s = inl (dec_val n s).
Proof.
  induction s as [|c s IH]; intros n Hn Hd Hv;
    cbn [parse_digits dec_val all_digits] in *; [reflexivity|].
  destruct Hd as [Hc Hd]. cbv zeta.
  pose proof (digit_of_byte_nonneg c) as Hc0.
  pose proof (dec_val_ge s (n * 10 + digit_of_byte c) ltac:(lia)) as Hge.
  destruct (Z.ltb_spec 9 (digit_of_byte c)); [lia|].
  destruct (Z.leb_spec (2 ^ 64) (n * 10 + digit_of_byte c)); [lia|].
  apply IH; auto; lia.
Qed.

Lemma zeros_digits k : all_digits (zeros k).
Proof. induction k; simpl; auto. split; [vm_compute; discriminate | auto]. Qed.

Lemma dec_val_zeros k : dec_val 0 (zeros k) = 0.
Proof. induction k; simpl; auto. Qed.

(** [write_digits] puts in front of the buffer the decimal digits of its
    argument, at least one. *)
Lemma write_digits_spec fuel : forall u buf,
  0 <= u < 10 ^ Z.of_nat fuel -> (0 < fuel)%nat ->
  exists ds, write_digits fuel u buf = ds ++ buf
             /\ ds <> EmptyString /\ all_digits ds /\ dec_val 0 ds = u.
Proof.
  induction fuel as [|fuel IH]; intros u buf Hu Hf; [lia|].
  simpl. destruct (Z.leb_spec 10 u) as [Hge|Hlt].
  - assert (Hq : 0 <= u / 10 < 10 ^ Z.of_nat fuel).
    { rewrite Nat2Z.inj_succ, Z.pow_succ_r in Hu by lia.
      split; [apply Z.div_pos; lia | apply Z.div_lt_upper_bound; lia]. }
    assert (Hf' : (0 < fuel)%nat).
    { destruct fuel; [simpl in Hq; assert (0 < u / 10)
        by (apply Z.div_str_pos; lia); lia | lia]. }
    destruct (IH (u / 10) (String (byte_of_digit (u mod 10)) buf) Hq Hf')
      as (ds & E & Hne & Hd & Hv).
    pose proof (Z.mod_pos_bound u 10 ltac:(lia)) as Hm.
    exists (ds ++ String (byte_of_digit (u mod 10)) EmptyString).
    rewrite E. repeat split.
    + clear. induction ds; simpl; [reflexivity | now f_equal].
    + destruct ds; [congruence | discriminate].
    + apply all_digits_app; auto. simpl.
      rewrite digit_of_byte_of_digit by lia. split; [lia | exact I].
    + rewrite dec_val_app, Hv. simpl.
      rewrite digit_of_byte_of_digit by lia.
      pose proof (Z.div_mod u 10 ltac:(lia)). lia.
  - exists (String (byte_of_digit u) EmptyString). simpl.
    rewrite digit_of_byte_of_digit by lia. repeat split; try lia.
    discriminate.
Qed.


Lemma all_digits_num_chars s : all_digits s -> num_chars s.
Proof. induction s; simpl; unfold num_char; intuition. Qed.

Lemma digit_not_sign c :
  digit_of_byte c <= 9 -> Ascii.eqb c "-" = false /\ Ascii.eqb c "+" = false.
Proof.
  intros H. split; destruct (Ascii.eqb_spec c "-"), (Ascii.eqb_spec c "+");
    subst; try reflexivity; vm_compute in H; congruence.
Qed.

(** What [fmt_int] returns, piece by piece. *)
Lemma fmt_int_shape width z :
  GoInt.in_range z ->
  exists k ds, ds <> EmptyString /\ all_digits ds /\ dec_val 0 ds = Z.abs z
    /\ fmt_int width z
       = if z <? 0 then String "-" (zeros k ++ ds) else zeros k ++ ds.
Proof.
  intros Hz. unfold fmt_int.
  assert (Hu : 0 <= Z.abs z < 10 ^ Z.of_nat 20).
  { unfold GoInt.in_range, GoInt.min_int, GoInt.max_int in Hz.
    change (10 ^ Z.of_nat 20) with 100000000000000000000.
    change (2 ^ 63) with 9223372036854775808 in Hz. lia. }
  destruct (write_digits_spec 20 (Z.abs z) EmptyString Hu ltac:(lia))
    as (ds & E & Hne & Hd & Hv).
  assert (Eds : ds ++ "" = ds) by (clear; induction ds; simpl; congruence).
  rewrite Eds in E. rewrite E.
  exists ((if (z <? 0)%Z then Nat.pred width else width) - String.length ds)%nat, ds.
  repeat split; auto.
Qed.

Theorem Atoi_fmt_int width z :
  GoInt.in_range z -> Atoi (fmt_int width z) = inl z.
Proof.
  intros Hz. destruct (fmt_int_shape width z Hz) as (k & ds & Hne & Hd & Hv & E).
  rewrite E. clear E.
  assert (Hall : all_digits (zeros k ++ ds))
    by (apply all_digits_app; auto using zeros_digits).
  assert (Hval : dec_val 0 (zeros k ++ ds) = Z.abs z)
    by (rewrite dec_val_app, dec_val_zeros; exact Hv).
  assert (Hnon : zeros k ++ ds <> EmptyString).
  { destruct k; simpl; [exact Hne | discriminate]. }
  unfold GoInt.in_range, GoInt.min_int, GoInt.max_int in Hz.
  assert (Hpd : parse_digits 0 (zeros k ++ ds) = inl (Z.abs z)).
  { rewrite parse_digits_dec; [congruence | lia | auto |].
    rewrite Hval. change (2 ^ 64) with 18446744073709551616.
    change (2 ^ 63) with 9223372036854775808 in Hz. lia. }
  destruct (Z.ltb_spec z 0) as [Hneg|Hpos].
  - unfold Atoi. rewrite Ascii.eqb_refl. cbn [orb].
    destruct (zeros k ++ ds) as [|c s] eqn:Es; [congruence|].
    rewrite Hpd. cbn [negb andb].
    destruct (Z.ltb_spec (2 ^ 63) (Z.abs z)); [lia|]. f_equal. lia.
  - destruct (zeros k ++ ds) as [|c s] eqn:Es; [congruence|].
    unfold Atoi. destruct Hall as [Hc _].
    destruct (digit_not_sign c Hc) as [E1 E2]. rewrite E1, E2. cbn [orb].
    rewrite Hpd. cbn [negb andb].
    destruct (Z.leb_spec (2 ^ 63) (Z.abs z)); [lia|]. f_equal. lia.
Qed.

Lemma fmt_int_num_chars width z :
  GoInt.in_range z -> num_chars (fmt_int width z).
Proof.
  intros Hz. destruct (fmt_int_shape width z Hz) as (k & ds & _ & Hd & _ & E).
  rewrite E.
  assert (num_chars (zeros k ++ ds)).
  { apply all_digits_num_chars, all_digits_app; auto using zeros_digits. }
  destruct (z <? 0); simpl; auto. split; auto. now right.
Qed.

(** [Split] at a separator that the pieces do not contain. *)
Lemma num_char_not_colon c : num_char c -> Ascii.eqb c ":" = false.
Proof.
  intros [H|H]; destruct (Ascii.eqb_spec c ":"); subst; try reflexivity;
    [vm_compute in H; congruence | discriminate].
Qed.

Lemma Split_piece a : forall b,
  num_chars a -> Split (a ++ String ":" b) ":" = a :: Split b ":".
Proof.
  induction a as [|c a IH]; intros b Ha; simpl.
  - reflexivity.
  - destruct Ha as [Hc Ha]. rewrite (num_char_not_colon c Hc).
    rewrite IH by assumption. reflexivity.
Qed.

Lemma Split_last a : num_chars a -> Split a ":" = [a].
Proof.
  induction a as [|c a IH]; intros Ha; simpl.
  - reflexivity.
  - destruct Ha as [Hc Ha]. rewrite (num_char_not_colon c Hc).
    rewrite IH by assumption. reflexivity.
Qed.

End GoLibFacts.
Import GoLibFacts.

(* ================================================================== *)
(** ** The timestamp codec *)


Section Codec.
Import GoInt.

Ltac range_arith :=
  unfold in_range, min_int, max_int in *;
  change (2 ^ 63) with 9223372036854775808 in *;
  Z.to_euclidean_division_equations; lia.

Lemma quo_60 a : in_range a -> quo a 60 = Z.quot a 60.
Proof. intros H. apply wrap_small. range_arith. Qed.

Lemma quo_60_in_range a : in_range a -> in_range (Z.quot a 60).
Proof. intros H. range_arith. Qed.

Lemma rem_60_in_range a : in_range a -> in_range (rem a 60).
Proof. intros H. unfold rem. range_arith. Qed.

(** The three fields of [secsToTs], without the wrap-around that cannot
    happen in them. *)
Lemma secsToTs_fields secs :
  in_range secs ->
  secsToTs secs
  = fmt_02d (Z.quot (Z.quot secs 60) 60) ++ ":"
    ++ fmt_02d (Z.rem (Z.quot secs 60) 60) ++ ":" ++ fmt_02d (Z.rem secs 60).
Proof.
  intros H. unfold secsToTs.
  rewrite (quo_60 secs H), (quo_60 _ (quo_60_in_range _ H)). reflexivity.
Qed.

(** Decoding undoes encoding on every [int], negative ones included. *)
Theorem tsToSecs_secsToTs secs :
  in_range secs -> tsToSecs (secsToTs secs) = Ok secs.
Proof.
  intros H. rewrite (secsToTs_fields secs H).
  pose proof (quo_60_in_range _ H) as Hq.
  pose proof (quo_60_in_range _ Hq) as Hhh.
  pose proof (rem_60_in_range _ Hq) as Hmm.
  pose proof (rem_60_in_range _ H) as Hss.
  unfold rem in Hmm, Hss.
  set (hh := Z.quot (Z.quot secs 60) 60) in *.
  set (mm := Z.rem (Z.quot secs 60) 60) in *.
  set (ss := Z.rem secs 60) in *.
  unfold tsToSecs, fmt_02d. cbn [append].
  rewrite Split_piece by now apply fmt_int_num_chars.
  rewrite Split_piece by now apply fmt_int_num_chars.
  rewrite Split_last by now apply fmt_int_num_chars.
  rewrite !Atoi_fmt_int by assumption. cbn [panic_if_err bind].
  f_equal. unfold add, mul.
  assert (E1 : in_range (60 * 60 * hh)) by (subst hh mm ss; range_arith).
  assert (E2 : in_range (60 * mm)) by (subst hh mm ss; range_arith).
  assert (E3 : in_range (60 * 60 * hh + 60 * mm)) by (subst hh mm ss; range_arith).
  assert (E4 : 60 * 60 * hh + 60 * mm + ss = secs) by (subst hh mm ss; range_arith).
  rewrite (wrap_small _ E1), (wrap_small _ E2), (wrap_small _ E3), E4.
  now apply wrap_small.
Qed.

Lemma fmt_02d_pad2 n : 0 <= n -> fmt_02d n = pad2 n.
Proof.
  intros Hn. unfold fmt_02d, pad2, fmt_d, fmt_int.
  destruct (Z.ltb_spec n 0); [lia|]. cbn [Nat.sub zeros append]. reflexivity.
Qed.

Lemma secsToTs_encode_spec secs :
  0 <= secs <= max_int -> secsToTs secs = encode_spec secs.
Proof.
  intros H. assert (Hr : in_range secs) by (unfold in_range, min_int, max_int in *; lia).
  rewrite (secsToTs_fields secs Hr). unfold encode_spec.
  assert (E1 : Z.quot (Z.quot secs 60) 60 = Z.quot secs 3600) by range_arith.
  assert (E2 : Z.rem (Z.quot secs 60) 60 = Z.quot secs 60 mod 60) by range_arith.
  assert (E3 : Z.rem secs 60 = secs mod 60) by range_arith.
  rewrite E1, E2, E3.
  rewrite !fmt_02d_pad2; [reflexivity | range_arith ..].
Qed.

End Codec.

(** C7. Round trip of the codec: for every [s] in [0, 359999],
    [tsToSecs (secsToTs s)] returns [s], and [secsToTs s] is the text the
    specification describes: [s/3600], [(s/60) mod 60] and [s mod 60], each
    padded with zeros to at least two digits, joined by colons. *)
Theorem codec_round_trip (s : Z) :
  0 <= s <= 359999 ->
  tsToSecs (secsToTs s) = Ok s /\ secsToTs s = encode_spec s.
Proof.
  intros H. split.
  - apply tsToSecs_secsToTs.
    unfold GoInt.in_range, GoInt.min_int, GoInt.max_int.
    change (2 ^ 63) with 9223372036854775808. lia.
  - apply secsToTs_encode_spec. unfold GoInt.max_int.
    change (2 ^ 63) with 9223372036854775808. lia.
Qed.

Lemma codec_round_trip_witness :
  0 <= 3725 <= 359999
  /\ tsToSecs (secsToTs 3725) = Ok 3725 /\ secsToTs 3725 = encode_spec 3725.
Proof.
  split; [lia | apply (codec_round_trip 3725); lia].
Defined.

(* ================================================================== *)
(** ** The marker parser *)

Section Parser.
Import GoInt.

Lemma parse_digits_nonneg s : forall n u,
  0 <= n -> parse_digits n s = inl u -> 0 <= u.
Proof.
  induction s as [|c s IH]; intros n u Hn E; cbn [parse_digits] in E.
  - injection E as <-. exact Hn.
  - cbv zeta in E. pose proof (digit_of_byte_nonneg c).
    destruct (9 <? digit_of_byte c); [discriminate|].
    destruct (2 ^ 64 <=? n * 10 + digit_of_byte c); [discriminate|].
    apply IH with (n := n * 10 + digit_of_byte c); [lia | exact E].
Qed.

(** [Atoi] returns a value of type [int]. *)
Lemma Atoi_in_range s z : Atoi s = inl z -> in_range z.
Proof.
  unfold Atoi. destruct s as [|c rest]; [discriminate|].
  set (neg := Ascii.eqb c "-").
  destruct (if neg || Ascii.eqb c "+" then rest else String c rest)
    as [|c' s']; [discriminate|].
  destruct (parse_digits 0 (String c' s')) as [un|[|]] eqn:E; try discriminate.
  apply parse_digits_nonneg in E; [|lia].
  unfold in_range, min_int, max_int.
  destruct neg; cbn [negb andb];
    [destruct (Z.ltb_spec (2 ^ 63) un) | destruct (Z.leb_spec (2 ^ 63) un)];
    try discriminate; intros [= <-]; lia.
Qed.

(** The delay only moves the timestamp of a record. *)
Lemma readMarker_delay d record :
  readMarker d record
  = match readMarker 0 record with
    | Ok (t, ignored) => Ok (add t d, ignored)
    | Panic v => Panic v
    end.
Proof.
  unfold readMarker. destruct (len record <=? 0); [reflexivity|].
  destruct (Atoi (nth 0 record "")) as [z|e] eqn:E; cbn [panic_if_err bind];
    [|reflexivity].
  rewrite (add_0_r z (Atoi_in_range _ _ E)). reflexivity.
Qed.

Lemma loadLoop_markers delay reads : forall ms st,
  markersOf delay reads = Some ms ->
  loadLoop delay st reads = runMarkers st ms.
Proof.
  induction reads as [|rd reads IH]; intros ms st E; cbn [markersOf] in E.
  - injection E as <-. reflexivity.
  - destruct (markerOfRead delay rd) as [m|] eqn:Em; [|discriminate].
    destruct (markersOf delay reads) as [ms'|]; [|discriminate].
    injection E as <-. cbn [loadLoop runMarkers]. unfold loadStep.
    unfold markerOfRead in Em. destruct rd as [record|e]; [|discriminate].
    cbn [panic_if_err bind].
    destruct (readMarker delay record) as [m'|v]; [|discriminate].
    injection Em as ->. cbn [bind].
    destruct (markerStep st m); cbn [bind]; [apply IH|]; reflexivity.
Qed.

(** An invariant of the state machine is an invariant of the loop. *)
Lemma loadLoop_invariant (P : LoadState -> Prop) :
  (forall st m st', P st -> markerStep st m = Ok st' -> P st') ->
  forall reads delay st st',
    P st -> loadLoop delay st reads = Ok st' -> P st'.
Proof.
  intros Hstep reads delay. induction reads as [|rd reads IH];
    intros st st' HP E; cbn [loadLoop] in E.
  - injection E as <-. exact HP.
  - unfold loadStep in E. destruct rd as [record|e]; [|discriminate].
    cbn [panic_if_err bind] in E.
    destruct (readMarker delay record) as [m|v]; [|discriminate].
    cbn [bind] in E.
    destruct (markerStep st m) as [st1|v] eqn:Es; [|discriminate].
    cbn [bind] in E. eapply IH; [|exact E]. eapply Hstep; eauto.
Qed.

Lemma odd_consumed st : Nat.odd (consumed st) = is_open st.
Proof.
  unfold consumed. destruct (is_open st).
  - rewrite Nat.add_comm, Nat.odd_add_mul_2. reflexivity.
  - rewrite Nat.add_0_r, <- (Nat.add_0_l (2 * _)), Nat.odd_add_mul_2.
    reflexivity.
Qed.

(** When every ignore-marker falls inside a chunk, the machine runs to
    the end, and two non-ignore markers make one chunk. *)
Lemma runMarkers_inside ms : forall st,
  ignoresInsideFrom (consumed st) ms = true ->
  exists st', runMarkers st ms = Ok st'
              /\ consumed st' = (consumed st + countNonIgnore ms)%nat.
Proof.
  induction ms as [|[t ignored] ms IH]; intros st H.
  - exists st. split; [reflexivity|]. unfold countNonIgnore. simpl. lia.
  - cbn [ignoresInsideFrom] in H. cbn [runMarkers markerStep].
    unfold countNonIgnore in *. cbn [filter snd negb].
    destruct ignored; cbn [negb].
    + apply andb_prop in H as [Hodd H]. rewrite odd_consumed in Hodd.
      unfold is_open in Hodd.
      destruct (chunkCurrent st) as [cur|] eqn:Ec; [|discriminate].
      cbn [bind].
      set (st1 := mkLoadState _ _).
      assert (E1 : consumed st1 = consumed st).
      { unfold consumed, is_open. subst st1. cbn. now rewrite Ec. }
      rewrite <- E1 in H. destruct (IH st1 H) as (st' & Er & Ec').
      exists st'. split; [exact Er | lia].
    + destruct (chunkCurrent st) as [cur|] eqn:Ec; cbn [bind];
        set (st1 := mkLoadState _ _);
        assert (E1 : consumed st1 = S (consumed st))
          by (unfold consumed, is_open; subst st1; cbn;
              rewrite Ec, ?length_app; cbn; lia);
        rewrite <- E1 in H; destruct (IH st1 H) as (st' & Er & Ec');
        exists st'; (split; [exact Er | cbn [List.length]; lia]).
Qed.

(** Otherwise the first ignore-marker that falls outside stops it. *)
Lemma runMarkers_outside ms : forall st,
  ignoresInsideFrom (consumed st) ms = false ->
  exists t, In (t, true) ms /\ runMarkers st ms = Panic (outOfChunk t).
Proof.
  induction ms as [|[t ignored] ms IH]; intros st H.
  - discriminate.
  - cbn [ignoresInsideFrom] in H. cbn [runMarkers markerStep].
    destruct ignored.
    + destruct (chunkCurrent st) as [cur|] eqn:Ec.
      * assert (Hodd : Nat.odd (consumed st) = true)
          by (rewrite odd_consumed; unfold is_open; now rewrite Ec).
        rewrite Hodd in H. cbn [andb] in H. cbn [bind].
        set (st1 := mkLoadState _ _).
        assert (E1 : consumed st1 = consumed st).
        { unfold consumed, is_open. subst st1. cbn. now rewrite Ec. }
        rewrite <- E1 in H. destruct (IH st1 H) as (t' & Hin & Er).
        exists t'. split; [now right | exact Er].
      * exists t. split; [now left | reflexivity].
    + destruct (chunkCurrent st) as [cur|] eqn:Ec; cbn [bind];
        set (st1 := mkLoadState _ _);
        assert (E1 : consumed st1 = S (consumed st))
          by (unfold consumed, is_open; subst st1; cbn;
              rewrite Ec, ?length_app; cbn; lia);
        rewrite <- E1 in H; destruct (IH st1 H) as (t' & Hin & Er);
        exists t'; (split; [now right | exact Er]).
Qed.

End Parser.

Lemma load_markers reads delay ms :
  markersOf delay reads = Some ms ->
  loadChunksFromReader reads delay
  = (st <- runMarkers (mkLoadState [] None) ms ;;
     match chunkCurrent st with
     | Some _ => Panic unclosed
     | None => Ok (chunks st)
     end).
Proof.
  intros E. unfold loadChunksFromReader.
  now rewrite (loadLoop_markers delay reads ms _ E).
Qed.

(** C2. Parser totality: for every marker stream with an even number of
    non-ignore markers in which every ignore-marker has an odd number of
    non-ignore markers before it (it falls inside an open chunk), parsing
    succeeds and produces exactly (non-ignore marker count)/2 chunks. *)
Theorem parser_totality (reads : list ReadResult) (delay : Z) (ms : list Marker) :
  markersOf delay reads = Some ms ->
  Nat.even (countNonIgnore ms) = true ->
  ignoresInsideChunks ms = true ->
  exists cs, loadChunksFromReader reads delay = Ok cs
             /\ List.length cs = (countNonIgnore ms / 2)%nat.
Proof.
  intros Em Heven Hin. rewrite (load_markers _ _ _ Em).
  destruct (runMarkers_inside ms (mkLoadState [] None) Hin) as (st & Er & Ec).
  rewrite Er. cbn [bind].
  pose proof (odd_consumed st) as Hodd. rewrite Ec in Hodd.
  change (consumed (mkLoadState [] None)) with 0%nat in *.
  rewrite Nat.add_0_l in *.
  rewrite <- Nat.negb_even, Heven in Hodd. cbn [negb] in Hodd.
  unfold consumed in Ec. rewrite <- Hodd in Ec. unfold is_open in Hodd.
  destruct (chunkCurrent st); [discriminate|].
  exists (chunks st). split; [reflexivity|].
  rewrite <- Ec, Nat.add_0_r, Nat.mul_comm, Nat.div_mul by lia. reflexivity.
Qed.

Lemma parser_totality_witness :
  exists cs,
    loadChunksFromReader
      [inl ["10"; ""]; inl ["20"; ""]; inl ["30"; ""]; inl ["35"; "ignore"];
       inl ["40"; ""]] 0
    = Ok cs
    /\ List.length cs = 2%nat.
Proof.
  apply (parser_totality _ 0
           [(10, false); (20, false); (30, false); (35, true); (40, false)]);
    reflexivity.
Defined.

(** The statement of the specification fails on a stream whose
    ignore-marker follows a closed chunk. *)
Lemma parser_totality_counterexample :
  ~ totality_as_stated
      [inl ["10"; ""]; inl ["20"; ""]; inl ["25"; "ignore"]; inl ["30"; ""];
       inl ["40"; ""]].
Proof.
  intros H.
  destruct (H [(10, false); (20, false); (25, true); (30, false); (40, false)]
              eq_refl eq_refl eq_refl) as (cs & E & _).
  vm_compute in E. discriminate.
Qed.

(** C5. Parser rejection: a stream whose first record is an ignore-marker
    fails with the out-of-chunk error for that record's timestamp; a stream
    with an odd number of non-ignore markers fails, with the unclosed-chunk
    error when every ignore-marker falls inside an open chunk and with the
    out-of-chunk error of an ignore-marker of the stream otherwise. *)
Theorem parser_rejection (reads : list ReadResult) (delay : Z) (ms : list Marker) :
  markersOf delay reads = Some ms ->
  (forall t rest, ms = (t, true) :: rest ->
     loadChunksFromReader reads delay = Panic (outOfChunk t))
  /\ (Nat.odd (countNonIgnore ms) = true ->
      if ignoresInsideChunks ms
      then loadChunksFromReader reads delay = Panic unclosed
      else exists t, In (t, true) ms
                     /\ loadChunksFromReader reads delay = Panic (outOfChunk t)).
Proof.
  intros Em. rewrite (load_markers _ _ _ Em). split.
  - intros t rest ->. reflexivity.
  - intros Hodd. unfold ignoresInsideChunks.
    destruct (ignoresInsideFrom 0 ms) eqn:Hin.
    + destruct (runMarkers_inside ms (mkLoadState [] None) Hin) as (st & Er & Ec).
      rewrite Er. cbn [bind].
      pose proof (odd_consumed st) as Ho. rewrite Ec in Ho.
      change (consumed (mkLoadState [] None)) with 0%nat in Ho.
      rewrite Nat.add_0_l, Hodd in Ho. unfold is_open in Ho.
      destruct (chunkCurrent st); [reflexivity | discriminate].
    + destruct (runMarkers_outside ms (mkLoadState [] None) Hin) as (t & Ht & Er).
      exists t. rewrite Er. split; [exact Ht | reflexivity].
Qed.

Lemma parser_rejection_witness :
  loadChunksFromReader [inl ["5"; "ignore"]; inl ["10"; ""]] 0
  = Panic (outOfChunk 5)
  /\ loadChunksFromReader [inl ["10"; ""]; inl ["12"; "ignore"]; inl ["20"; ""]; inl ["30"; ""]] 0
     = Panic unclosed.
Proof.
  split.
  - apply (proj1 (parser_rejection [inl ["5"; "ignore"]; inl ["10"; ""]] 0
                    [(5, true); (10, false)] eq_refl) 5 [(10, false)] eq_refl).
  - apply (proj2 (parser_rejection
                    [inl ["10"; ""]; inl ["12"; "ignore"]; inl ["20"; ""]; inl ["30"; ""]] 0
                    [(10, false); (12, true); (20, false); (30, false)] eq_refl)
             eq_refl).
Defined.

(** The statement of the specification fails on the specification's own
    example, three non-ignore markers with an ignore-marker after the
    first chunk has closed: the error is the out-of-chunk one. *)
Lemma parser_rejection_counterexample :
  ~ rejection_as_stated example_rows.
Proof.
  intros H.
  destruct (H [(10, false); (20, false); (25, true); (30, false)] eq_refl)
    as [_ H2].
  specialize (H2 eq_refl). vm_compute in H2. discriminate.
Qed.

(** C3. The worked example: on the rows [(10,""), (20,""), (25,"ignore"),
    (30,"")] with delay 0 the parser stops with the out-of-chunk error for
    timestamp 25, so no highlight is derived; the two chunks of the example
    come out of the stream in which the marker 20 is given twice, with the
    names chunk-00.mp4 and chunk-01.mp4, and their highlights are
    00:00:10 cut, 00:00:15 ignored, 00:00:20 cut. *)
Theorem example_parse :
  loadChunksFromReader example_rows 0 = Panic (outOfChunk 25)
  /\ loadChunksFromReader
       [inl ["10"; ""]; inl ["20"; ""]; inl ["20"; ""];
        inl ["25"; "ignore"]; inl ["30"; ""]] 0
     = Ok [mkChunk 10 20 [] "chunk-00.mp4"; mkChunk 20 30 [25] "chunk-01.mp4"]
  /\ highlightChunks
       [mkChunk 10 20 [] "chunk-00.mp4"; mkChunk 20 30 [25] "chunk-01.mp4"]
     = Ok [mkHighlight "00:00:10" "cut"; mkHighlight "00:00:15" "ignored";
           mkHighlight "00:00:20" "cut"].
Proof. repeat split; vm_compute; reflexivity. Qed.

Lemma example_counterexample : ~ example_as_stated.
Proof. intros [H _]. vm_compute in H. discriminate. Qed.

Lemma markerStep_names st m st' :
  names_ok (chunks st) -> markerStep st m = Ok st' -> names_ok (chunks st').
Proof.
  intros H E. destruct m as [t ignored]. unfold markerStep in E.
  destruct (chunkCurrent st) as [cur|], ignored; try discriminate;
    injection E as <-; cbn [chunks]; auto.
  intros i c Hi.
  destruct (Nat.lt_ge_cases i (List.length (chunks st))) as [Hlt|Hge].
  - rewrite nth_error_app1 in Hi by assumption. now apply H.
  - rewrite nth_error_app2 in Hi by assumption.
    destruct (i - List.length (chunks st))%nat as [|k] eqn:Ek.
    + injection Hi as <-. cbn [Name]. unfold len.
      replace i with (List.length (chunks st)) by lia. reflexivity.
    + destruct k; discriminate.
Qed.

(** C4. Chunk names: for every successful parse, the i-th finalized chunk
    (zero-based, in emission order) is named "chunk-", then i padded with
    zeros to at least two digits, then ".mp4". *)
Theorem chunk_names (reads : list ReadResult) (delay : Z)
    (cs : list Chunk) (i : nat) (c : Chunk) :
  loadChunksFromReader reads delay = Ok cs ->
  nth_error cs i = Some c ->
  Name c = "chunk-" ++ fmt_02d (Z.of_nat i) ++ ".mp4".
Proof.
  unfold loadChunksFromReader. intros E.
  destruct (loadLoop delay (mkLoadState [] None) reads) as [st|v] eqn:El;
    [|discriminate].
  cbn [bind] in E. destruct (chunkCurrent st); [discriminate|].
  injection E as <-.
  assert (H : names_ok (chunks st)).
  { apply (loadLoop_invariant (fun s => names_ok (chunks s)) markerStep_names
             reads delay (mkLoadState [] None) st); [|exact El].
    intros [|k] c' H0; discriminate. }
  apply H.
Qed.

Lemma chunk_names_witness :
  Name (mkChunk 30 40 [] "chunk-01.mp4") = "chunk-" ++ fmt_02d 1 ++ ".mp4".
Proof.
  apply (chunk_names [inl ["10"]; inl ["20"]; inl ["30"]; inl ["40"]] 0
           [mkChunk 10 20 [] "chunk-00.mp4"; mkChunk 30 40 [] "chunk-01.mp4"]
           1 (mkChunk 30 40 [] "chunk-01.mp4"));
    reflexivity.
Defined.

(** A name ends in ".mp4", which the statement of the specification
    leaves out. *)
Lemma chunk_names_counterexample :
  ~ names_as_stated [inl ["10"]; inl ["20"]] 0.
Proof.
  intros H.
  specialize (H [mkChunk 10 20 [] "chunk-00.mp4"] 0%nat
                (mkChunk 10 20 [] "chunk-00.mp4") eq_refl eq_refl).
  vm_compute in H. discriminate.
Qed.

(** *** Ordered chunks *)

Lemma runMarkers_ordered ms : forall st lo st',
  nondecreasingFrom lo (map fst ms) = true ->
  bounded_open lo st ->
  runMarkers st ms = Ok st' ->
  Forall chunk_ordered (chunks st').
Proof.
  induction ms as [|[t ignored] ms IH]; intros st lo st' Hs [Hcs Hcur] E.
  - injection E as <-. exact Hcs.
  - cbn [map fst nondecreasingFrom] in Hs. apply andb_prop in Hs as [Hlo Hs].
    apply Z.leb_le in Hlo. cbn [runMarkers markerStep] in E.
    destruct (chunkCurrent st) as [cur|], ignored; cbn [bind] in E;
      try discriminate; (eapply IH; [exact Hs | | exact E]);
      split; cbn [chunks chunkCurrent Start Ignored]; auto.
    + destruct Hcur as [H1 H2]. split; [lia|].
      apply Forall_app. split.
      * eapply Forall_impl; [|exact H2]. cbv beta. intros a Ha. lia.
      * constructor; [lia | constructor].
    + destruct Hcur as [H1 H2]. apply Forall_app. split; [exact Hcs|].
      constructor; [|constructor]. split; cbn [Start End Ignored]; [lia|].
      eapply Forall_impl; [|exact H2]. cbv beta. intros a Ha. lia.
    + split; [lia | constructor].
Qed.

(** C8. Chunk invariant: when the timestamps of the stream, delay added,
    never decrease in input order, every chunk of a successful parse has
    [end >= start] and every timestamp [t] of its ignored sequence has
    [start <= t <= end]. *)
Theorem ordered_stream_ordered_chunks (reads : list ReadResult) (delay : Z)
    (ms : list Marker) (cs : list Chunk) :
  markersOf delay reads = Some ms ->
  nondecreasing (map fst ms) = true ->
  loadChunksFromReader reads delay = Ok cs ->
  Forall chunk_ordered cs.
Proof.
  intros Em Hs E. rewrite (load_markers _ _ _ Em) in E.
  destruct (runMarkers (mkLoadState [] None) ms) as [st|v] eqn:Er;
    [|discriminate].
  cbn [bind] in E. destruct (chunkCurrent st); [discriminate|].
  injection E as <-.
  destruct ms as [|[t ignored] ms'].
  - injection Er as <-. constructor.
  - apply (runMarkers_ordered ((t, ignored) :: ms') (mkLoadState [] None) t st).
    + cbn [map fst nondecreasing nondecreasingFrom] in *.
      rewrite Z.leb_refl. exact Hs.
    + split; [constructor | exact I].
    + exact Er.
Qed.

Lemma ordered_stream_ordered_chunks_witness :
  Forall chunk_ordered [mkChunk 10 20 [12; 12] "chunk-00.mp4"].
Proof.
  apply (ordered_stream_ordered_chunks
           [inl ["10"; ""]; inl ["12"; "ignore"]; inl ["12"; "ignore"]; inl ["20"; ""]] 0
           [(10, false); (12, true); (12, true); (20, false)]);
    reflexivity.
Defined.

(** The parser does not compare timestamps: a closing marker earlier than
    the opening one gives a chunk that ends before it starts. *)
Lemma ordered_stream_ordered_chunks_counterexample :
  ~ order_as_stated [inl ["20"]; inl ["10"]] 0.
Proof.
  intros H. specialize (H [mkChunk 20 10 [] "chunk-00.mp4"] eq_refl).
  inversion H as [|c l [Hse _] _]. cbn in Hse. lia.
Qed.

(** *** Delay *)

Section Delay.
Import GoInt.
Variable d : Z.

Lemma markerStep_delayed st0 std t ignored :
  in_range t ->
  state_delayed d st0 std ->
  result_delayed (state_delayed d)
    (markerStep st0 (t, ignored)) (markerStep std (add t d, ignored)).
Proof.
  intros Ht [Hcs Hcur]. unfold markerStep.
  destruct (chunkCurrent st0) as [c0|], (chunkCurrent std) as [cd|];
    try contradiction; destruct ignored; cbn [result_delayed]; auto;
    split; cbn [chunks chunkCurrent]; auto.
  - destruct Hcur as [H1 H2]. split; cbn [Start Ignored]; [exact H1|].
    rewrite map_app, H2. reflexivity.
  - destruct Hcur as [H1 H2]. apply Forall2_app; [exact Hcs|].
    constructor; [|constructor]. repeat split; cbn [Start End Ignored]; auto.
  - split; cbn [Start Ignored]; reflexivity.
Qed.

Lemma loadStep_delayed st0 std rd :
  state_delayed d st0 std ->
  result_delayed (state_delayed d) (loadStep 0 st0 rd) (loadStep d std rd).
Proof.
  intros H. unfold loadStep. destruct rd as [record|e]; [|exact I].
  cbn [panic_if_err bind]. rewrite (readMarker_delay d record).
  destruct (readMarker 0 record) as [[t ignored]|v] eqn:Er; [|exact I].
  cbn [bind]. apply markerStep_delayed; [|exact H].
  unfold readMarker in Er. destruct (len record <=? 0); [discriminate|].
  destruct (Atoi (nth 0 record "")) as [z|e]; [|discriminate].
  cbn [panic_if_err bind] in Er. injection Er as <- _. apply wrap_in_range.
Qed.

Lemma loadLoop_delayed reads : forall st0 std,
  state_delayed d st0 std ->
  result_delayed (state_delayed d) (loadLoop 0 st0 reads) (loadLoop d std reads).
Proof.
  induction reads as [|rd reads IH]; intros st0 std H; cbn [loadLoop].
  - exact H.
  - pose proof (loadStep_delayed st0 std rd H) as Hs.
    destruct (loadStep 0 st0 rd) as [s0|v0], (loadStep d std rd) as [sd|vd];
      try contradiction; cbn [bind]; [apply IH; exact Hs | exact I].
Qed.

Lemma load_delayed reads :
  result_delayed (Forall2 (delayed add d))
    (loadChunksFromReader reads 0) (loadChunksFromReader reads d).
Proof.
  unfold loadChunksFromReader.
  pose proof (loadLoop_delayed reads (mkLoadState [] None) (mkLoadState [] None)
                (conj (Forall2_nil _) I)) as H.
  destruct (loadLoop 0 _ reads) as [s0|v0], (loadLoop d _ reads) as [sd|vd];
    try contradiction; cbn [bind]; [|exact I].
  destruct H as [Hcs Hcur].
  destruct (chunkCurrent s0), (chunkCurrent sd); try contradiction;
    [exact I | exact Hcs].
Qed.

End Delay.

Lemma delayed_exact d c0 cd :
  delay_fits d c0 -> delayed GoInt.add d c0 cd -> delayed Z.add d c0 cd.
Proof.
  intros (Hs & He & Hi) (Es & Ee & Ei). unfold delayed.
  rewrite Es, Ee, Ei, !add_exact by assumption. repeat split.
  apply map_ext_in. intros t Ht. rewrite Forall_forall in Hi.
  apply add_exact, Hi, Ht.
Qed.

(** C6. Delay invariance: for every stream and every delay [d], parsing
    with delay [d] succeeds exactly when parsing with delay 0 succeeds, and
    on success the chunks are as many and every start, end and ignored
    timestamp is the one of the delay-0 result plus [d] in the arithmetic
    of [int], which wraps around at 64 bits; it is exactly [d] greater when
    adding [d] to the timestamps of the delay-0 result stays within
    [int]. *)
Theorem delay_invariance_int (reads : list ReadResult) (d : Z) :
  delay_invariance GoInt.add reads d
  /\ ((forall cs0, loadChunksFromReader reads 0 = Ok cs0 ->
                   Forall (delay_fits d) cs0) ->
      delay_invariance Z.add reads d).
Proof.
  pose proof (load_delayed d reads) as H.
  assert (Hint : delay_invariance GoInt.add reads d).
  { split.
    - destruct (loadChunksFromReader reads 0), (loadChunksFromReader reads d);
        try contradiction; reflexivity.
    - intros cs0 E. rewrite E in H.
      destruct (loadChunksFromReader reads d) as [csd|v]; [|contradiction].
      exists csd. split; [reflexivity | exact H]. }
  split; [exact Hint|].
  intros Hfits. destruct Hint as [Hok Hcs]. split; [exact Hok|].
  intros cs0 E. destruct (Hcs cs0 E) as (csd & Ed & HF).
  exists csd. split; [exact Ed|].
  specialize (Hfits cs0 E). clear - HF Hfits.
  induction HF as [|c0 cd l0 ld Hc HF IH]; constructor.
  - apply delayed_exact; [|exact Hc]. now inversion Hfits.
  - apply IH. now inversion Hfits.
Qed.

Lemma delay_invariance_int_witness :
  delay_invariance Z.add
    [inl ["10"; ""]; inl ["12"; "ignore"]; inl ["20"; ""]] (-3).
Proof.
  apply (proj2 (delay_invariance_int
                  [inl ["10"; ""]; inl ["12"; "ignore"]; inl ["20"; ""]] (-3))).
  intros cs0 E. vm_compute in E. injection E as <-.
  repeat constructor; vm_compute; discriminate.
Defined.

(** With the addition of the integers the statement fails at the upper
    end of [int]: one second after 9223372036854775807 is
    -9223372036854775808. *)
Lemma delay_invariance_counterexample :
  ~ delay_invariance Z.add
      [inl ["9223372036854775807"]; inl ["9223372036854775807"]] 1.
Proof.
  intros [_ H]. destruct (H _ eq_refl) as (csd & E & HF).
  vm_compute in E. injection E as <-.
  inversion HF as [|c0 cd l0 ld [Hs _] _]. vm_compute in Hs. discriminate.
Qed.

(* ================================================================== *)
(** ** Highlights *)

Section Highlights.
Import GoInt.

Lemma Duration_forward c t :
  Start c <= t -> Duration c t = Ok (sub t (Start c)).
Proof.
  intros H. unfold Duration. destruct (Z.ltb_spec t (Start c)); [lia|reflexivity].
Qed.

Lemma highlightIgnored_forward secs c ignored : forall hs,
  Forall (fun t => Start c <= t) ignored ->
  highlightIgnored secs c ignored hs
  = Ok (hs ++ map (fun t => mkHighlight (secsToTs (add secs (sub t (Start c))))
                              "ignored") ignored)%list.
Proof.
  induction ignored as [|t rest IH]; intros hs H; cbn [highlightIgnored map].
  - now rewrite app_nil_r.
  - inversion H as [|? ? Ht Hrest]; subst.
    rewrite (Duration_forward c t Ht). cbn [bind].
    rewrite (IH _ Hrest), <- app_assoc. reflexivity.
Qed.

(** On chunks that run forward the deriver returns, and what it returns
    is [highlightsFrom]. *)
Lemma highlightLoop_forward cs : forall secs hs,
  Forall chunk_forward cs ->
  highlightLoop cs secs hs = Ok (hs ++ highlightsFrom secs cs)%list.
Proof.
  induction cs as [|c cs IH]; intros secs hs H; cbn [highlightLoop highlightsFrom].
  - now rewrite app_nil_r.
  - inversion H as [|? ? [Hend Hign] Hrest]; subst.
    rewrite (highlightIgnored_forward secs c (Ignored c) hs Hign). cbn [bind].
    rewrite (Duration_forward c (End c) Hend). cbn [bind].
    rewrite (IH _ _ Hrest), <- !app_assoc. reflexivity.
Qed.

Lemma find_app {A} (f : A -> bool) l1 l2 :
  find f (l1 ++ l2)
  = match find f l1 with Some a => Some a | None => find f l2 end.
Proof.
  induction l1 as [|a l1 IH]; cbn [app find]; [reflexivity|].
  destruct (f a); [reflexivity | exact IH].
Qed.

Lemma lastCut_app hs1 hs2 h :
  lastCut hs2 = Some h -> lastCut (hs1 ++ hs2) = Some h.
Proof.
  unfold lastCut. intros H. now rewrite rev_app_distr, find_app, H.
Qed.

(** The last cut of a non-empty sequence stands at the elapsed time plus
    the sum of the durations, as an [int]. *)
Lemma lastCut_highlightsFrom cs : forall secs,
  cs <> [] ->
  lastCut (highlightsFrom secs cs)
  = Some (mkHighlight (secsToTs (wrap (secs + sumDurations cs))) "cut").
Proof.
  induction cs as [|c cs IH]; intros secs Hne; [congruence|].
  cbn [highlightsFrom sumDurations fold_right]. cbv zeta.
  fold (sumDurations cs).
  apply lastCut_app.
  destruct cs as [|c' cs'].
  - cbn [highlightsFrom sumDurations fold_right]. unfold lastCut.
    cbn [rev app find message String.eqb Ascii.eqb Bool.eqb].
    do 3 f_equal. unfold add, sub. rewrite wrap_add_r. f_equal. lia.
  - change (?h :: ?l) with ([h] ++ l)%list at 1. apply lastCut_app.
    rewrite IH by discriminate. do 3 f_equal.
    unfold add, sub. rewrite wrap_add_r, wrap_add_l. f_equal. lia.
Qed.

End Highlights.

(** C9. Highlight timeline sum: for every non-empty chunk sequence in
    which each chunk has [start <= end] and [start <= t] for each ignored
    [t], the timestamp of the last "cut" highlight decodes to the sum of
    [end - start] over all chunks taken as an [int], that is wrapped around
    at 64 bits; it is the sum itself whenever the sum is an [int]. *)
Theorem timeline_sum_int (cs : list Chunk) :
  cs <> [] ->
  Forall chunk_forward cs ->
  timeline_sum (fun cs => GoInt.wrap (sumDurations cs)) cs
  /\ (GoInt.in_range (sumDurations cs) -> timeline_sum sumDurations cs).
Proof.
  intros Hne Hf.
  assert (H : timeline_sum (fun cs => GoInt.wrap (sumDurations cs)) cs).
  { exists (highlightsFrom 0 cs), (mkHighlight (secsToTs (GoInt.wrap (sumDurations cs))) "cut").
    split; [|split].
    - unfold highlightChunks. now rewrite (highlightLoop_forward cs 0 [] Hf).
    - now rewrite (lastCut_highlightsFrom cs 0 Hne).
    - cbn [timestamp]. apply tsToSecs_secsToTs, wrap_in_range. }
  split; [exact H|].
  intros Hr. destruct H as (hs & h & H1 & H2 & H3).
  exists hs, h. rewrite (wrap_small _ Hr) in H3. auto.
Qed.

Lemma timeline_sum_int_witness :
  timeline_sum sumDurations
    [mkChunk 10 20 [] "chunk-00.mp4"; mkChunk 30 45 [35] "chunk-01.mp4"].
Proof.
  apply (timeline_sum_int
           [mkChunk 10 20 [] "chunk-00.mp4"; mkChunk 30 45 [35] "chunk-01.mp4"]).
  - discriminate.
  - repeat constructor; cbn; lia.
  - vm_compute. split; discriminate.
Defined.

(** A chunk from the least to the greatest [int] runs forward, and its
    duration wraps around to -1. *)
Lemma timeline_sum_counterexample :
  ~ timeline_as_stated
      [mkChunk (-9223372036854775808) 9223372036854775807 [] "chunk-00.mp4"].
Proof.
  intros H.
  destruct H as (hs & h & H1 & H2 & H3).
  - discriminate.
  - repeat constructor; cbn; lia.
  - vm_compute in H1. injection H1 as <-.
    vm_compute in H2. injection H2 as <-.
    vm_compute in H3. discriminate.
Qed.

(** C10. Totality of the highlight deriver: on every chunk list in which
    each chunk has [start <= end] and [start <= t] for every ignored [t],
    no call of [Duration] that the deriver makes takes the branch of the
    failed assertion, and the deriver returns its highlights. *)
Theorem highlight_total (cs : list Chunk) :
  Forall chunk_forward cs ->
  (forall c, In c cs ->
     is_ok (Duration c (End c)) = true
     /\ forall t, In t (Ignored c) -> is_ok (Duration c t) = true)
  /\ highlightChunks cs = Ok (highlightsFrom 0 cs).
Proof.
  intros Hf. split.
  - intros c Hc. rewrite Forall_forall in Hf. destruct (Hf c Hc) as [Hend Hign].
    split.
    + now rewrite Duration_forward.
    + intros t Ht. rewrite Forall_forall in Hign.
      now rewrite Duration_forward by auto.
  - unfold highlightChunks. now rewrite (highlightLoop_forward cs 0 [] Hf).
Qed.

Lemma highlight_total_witness :
  highlightChunks [mkChunk 10 20 [] "chunk-00.mp4"; mkChunk 30 45 [35] "chunk-01.mp4"]
  = Ok [mkHighlight "00:00:10" "cut"; mkHighlight "00:00:15" "ignored";
        mkHighlight "00:00:25" "cut"].
Proof.
  apply (proj2 (highlight_total
                  [mkChunk 10 20 [] "chunk-00.mp4"; mkChunk 30 45 [35] "chunk-01.mp4"]
                  ltac:(repeat constructor; cbn; lia))).
Defined.

(* ================================================================== *)
(** ** The [chunk] subcommand *)

Section ChunkSubcommand.
Variable open : string -> list ReadResult + GoError.
Variable ffmpeg : list string -> option GoError.

(** The subcommand past its two flag checks and the parse. *)
Lemma chunkSubcommand_loaded flags reads cs :
  csvPtr flags <> "" ->
  inputPtr flags <> "" ->
  open (csvPtr flags) = inl reads ->
  loadChunksFromReader reads (delayPtr flags) = Ok cs ->
  chunkSubcommand open ffmpeg flags
  = ((if len cs <? chunkPtr flags
      then Print ("ERROR: " ++ fmt_d (chunkPtr flags)
                  ++ " is incorrect chunk number. There is only "
                  ++ fmt_d (len cs) ++ " of them." ++ nl) ;;;
           Exit 1
      else ret tt) ;;;
     c <~ lift (index cs (chunkPtr flags)) ;;
     err <~ lift (ffmpegCutChunk ffmpeg (inputPtr flags) c (yPtr flags)) ;;
     match err with
     | Some e => lift (Panic (PanicError e))
     | None =>
         Print (Name c ++ " is rendered!" ++ nl) ;;;
         if 0 <? len (Ignored c)
         then Print ("Ignored timestamps:" ++ nl) ;;;
              printIgnored c (Ignored c)
         else ret tt
     end).
Proof.
  intros Hcsv Hin Hopen Hload. unfold chunkSubcommand.
  apply String.eqb_neq in Hcsv, Hin. rewrite Hcsv, Hin.
  unfold loadChunksFromFile. rewrite Hopen. cbn [panic_if_err bind].
  rewrite Hload. cbn [lift ret andThen append].
  destruct (andThen _ _) as [out o]. reflexivity.
Qed.

End ChunkSubcommand.

(** C1. The single-chunk path on [n] parsed chunks: an index greater than
    [n] ends in the message that gives the index and [n] and in exit
    status 1; the index [n] itself passes the check [index > n] and the
    selection of the chunk panics, out of range. *)
Theorem chunk_index_past_the_end
    (open : string -> list ReadResult + GoError)
    (ffmpeg : list string -> option GoError)
    (flags : ChunkFlags) (reads : list ReadResult) (cs : list Chunk) :
  csvPtr flags <> "" ->
  inputPtr flags <> "" ->
  open (csvPtr flags) = inl reads ->
  loadChunksFromReader reads (delayPtr flags) = Ok cs ->
  (len cs < chunkPtr flags ->
   reports_count (chunkSubcommand open ffmpeg flags) (chunkPtr flags) (len cs))
  /\ (chunkPtr flags = len cs ->
      chunkSubcommand open ffmpeg flags
      = ("", Panicked (IndexOutOfRange (len cs) (len cs)))).
Proof.
  intros Hcsv Hin Hopen Hload.
  rewrite (chunkSubcommand_loaded open ffmpeg flags reads cs Hcsv Hin Hopen Hload).
  split.
  - intros Hgt. destruct (Z.ltb_spec (len cs) (chunkPtr flags)); [|lia].
    unfold reports_count. cbn [Print Exit andThen]. f_equal.
    generalize ("ERROR: " ++ fmt_d (chunkPtr flags)
                ++ " is incorrect chunk number. There is only "
                ++ fmt_d (len cs) ++ " of them." ++ nl).
    intros s. induction s; cbn [append]; congruence.
  - intros Heq. rewrite Heq.
    destruct (Z.ltb_spec (len cs) (len cs)); [lia|].
    unfold index. destruct (Z.leb_spec (len cs) (len cs)); [|lia].
    rewrite orb_true_r. reflexivity.
Qed.

Lemma chunk_index_past_the_end_witness :
  chunkSubcommand three_chunk_file ffmpeg_succeeds
    (mkChunkFlags "markers.csv" "input.mp4" 0 5 false)
  = ("ERROR: 5 is incorrect chunk number. There is only 3 of them." ++ nl,
     Exited 1)
  /\ chunkSubcommand three_chunk_file ffmpeg_succeeds
       (mkChunkFlags "markers.csv" "input.mp4" 0 3 false)
     = ("", Panicked (IndexOutOfRange 3 3)).
Proof.
  split.
  - apply (proj1 (chunk_index_past_the_end three_chunk_file ffmpeg_succeeds
                    (mkChunkFlags "markers.csv" "input.mp4" 0 5 false)
                    three_chunk_rows
                    [mkChunk 10 20 [] "chunk-00.mp4"; mkChunk 30 40 [] "chunk-01.mp4";
                     mkChunk 50 60 [] "chunk-02.mp4"]
                    ltac:(discriminate) ltac:(discriminate) eq_refl eq_refl)).
    vm_compute. reflexivity.
  - apply (proj2 (chunk_index_past_the_end three_chunk_file ffmpeg_succeeds
                    (mkChunkFlags "markers.csv" "input.mp4" 0 3 false)
                    three_chunk_rows
                    [mkChunk 10 20 [] "chunk-00.mp4"; mkChunk 30 40 [] "chunk-01.mp4";
                     mkChunk 50 60 [] "chunk-02.mp4"]
                    ltac:(discriminate) ltac:(discriminate) eq_refl eq_refl)).
    reflexivity.
Defined.

(* ================================================================== *)
(** * Further properties *)

(** ** Strings *)

Lemma append_nil_r s : s ++ "" = s.
Proof. induction s; cbn [append]; congruence. Qed.

Lemma append_assoc s1 s2 s3 : (s1 ++ s2) ++ s3 = s1 ++ (s2 ++ s3).
Proof. induction s1; cbn [append]; congruence. Qed.

Lemma length_append s1 s2 :
  String.length (s1 ++ s2) = (String.length s1 + String.length s2)%nat.
Proof. induction s1; cbn [append String.length Nat.add]; congruence. Qed.

Lemma append_cancel_r s : forall a b, a ++ s = b ++ s -> a = b.
Proof.
  induction a as [|c a IH]; intros [|c' b] E; cbn [append] in E.
  - reflexivity.
  - apply (f_equal String.length) in E.
    cbn [String.length] in E. rewrite length_append in E. lia.
  - apply (f_equal String.length) in E.
    cbn [String.length] in E. rewrite length_append in E. lia.
  - injection E as -> E. f_equal. now apply IH.
Qed.

Lemma joinLines_app l1 l2 : joinLines (l1 ++ l2) = joinLines l1 ++ joinLines l2.
Proof.
  unfold joinLines. induction l1 as [|a l1 IH]; cbn [app fold_right append].
  - reflexivity.
  - now rewrite IH, append_assoc.
Qed.

(** ** More on the codec *)

Section CodecMore.
Import GoInt.

Ltac int_arith :=
  unfold in_range, min_int, max_int in *;
  change (2 ^ 63) with 9223372036854775808 in *;
  Z.to_euclidean_division_equations; lia.

Lemma Split_length sep s : List.length (Split s sep) = S (countChar sep s).
Proof.
  induction s as [|c s IH]; cbn [Split countChar]; [reflexivity|].
  destruct (Ascii.eqb c sep); cbn [List.length]; [now rewrite IH|].
  destruct (Split s sep) as [|h t]; cbn [List.length] in *; [discriminate|].
  exact IH.
Qed.

Lemma wrap_sum3 a b c : add (add (wrap a) (wrap b)) c = wrap (a + b + c).
Proof.
  unfold add. rewrite wrap_add_l, <- Z.add_assoc, wrap_add_l.
  rewrite (Z.add_comm a), <- Z.add_assoc, wrap_add_l. f_equal. lia.
Qed.

Lemma write_digits_longer fuel : forall u buf,
  (0 < fuel)%nat ->
  (String.length buf < String.length (write_digits fuel u buf))%nat.
Proof.
  induction fuel as [|fuel IH]; intros u buf Hf; [lia|].
  cbn [write_digits]. destruct (10 <=? u); [|cbn [String.length]; lia].
  destruct fuel as [|fuel'].
  - cbn [write_digits String.length]. lia.
  - specialize (IH (u / 10) (String (byte_of_digit (u mod 10)) buf) ltac:(lia)).
    cbn [String.length] in IH. lia.
Qed.

Lemma write_digits_two fuel u :
  0 <= u ->
  let digits := write_digits (S (S (S fuel))) u "" in
  (u <= 99 -> String.length (zeros (2 - String.length digits) ++ digits) = 2%nat)
  /\ (99 < u -> (2 < String.length digits)%nat).
Proof.
  intros Hu. cbn [write_digits]. cbv zeta.
  destruct (Z.leb_spec 10 u); [destruct (Z.leb_spec 10 (u / 10))|].
  - split; [intros Hb; int_arith | intros _].
    set (buf := String _ (String _ "")).
    pose proof (write_digits_longer (S fuel) (u / 10 / 10) buf ltac:(lia)) as Hl.
    change (String.length buf) with 2%nat in Hl. exact Hl.
  - split; [reflexivity | intros Hb; int_arith].
  - split; [reflexivity | lia].
Qed.

(** [%02d] writes two characters for 0..99 and more above. *)
Lemma fmt_02d_length n :
  0 <= n ->
  (n <= 99 -> String.length (fmt_02d n) = 2%nat)
  /\ (99 < n -> (2 < String.length (fmt_02d n))%nat).
Proof.
  intros Hn. unfold fmt_02d, fmt_int.
  destruct (Z.ltb_spec n 0); [lia|]. rewrite Z.abs_eq by lia.
  destruct (write_digits_two 17 n Hn) as [H1 H2]. cbv zeta in H1, H2.
  split; intros Hb; [exact (H1 Hb)|].
  specialize (H2 Hb). rewrite length_append. lia.
Qed.

End CodecMore.

(** X1. Decoding undoes encoding on every [int], the negative ones
    included. *)
Theorem round_trip_every_int (secs : Z) :
  GoInt.in_range secs -> tsToSecs (secsToTs secs) = Ok secs.
Proof. apply tsToSecs_secsToTs. Qed.

Lemma round_trip_every_int_witness :
  secsToTs (-3661) = "-1:-1:-1" /\ tsToSecs (secsToTs (-3661)) = Ok (-3661).
Proof.
  split; [reflexivity|].
  apply (round_trip_every_int (-3661)). vm_compute. split; discriminate.
Defined.

(** X2. Two different [int]s never get the same text. *)
Theorem secsToTs_injective (a b : Z) :
  GoInt.in_range a -> GoInt.in_range b -> secsToTs a = secsToTs b -> a = b.
Proof.
  intros Ha Hb E.
  pose proof (tsToSecs_secsToTs a Ha) as Ea.
  rewrite E, (tsToSecs_secsToTs b Hb) in Ea. congruence.
Qed.

Lemma secsToTs_injective_witness : 3600 = 60 * 60.
Proof.
  apply (secsToTs_injective 3600 (60 * 60));
    [vm_compute; split; discriminate .. | reflexivity].
Defined.

(** X3. [tsToSecs] panics with "Expected 3 components in the timestamp"
    exactly on the texts that do not hold two colons. *)
Theorem tsToSecs_components (ts : string) :
  tsToSecs ts = Panic (PanicString "Expected 3 components in the timestamp")
  <-> countChar ":" ts <> 2%nat.
Proof.
  pose proof (Split_length ":" ts) as Hl. unfold tsToSecs.
  destruct (Split ts ":") as [|c0 [|c1 [|c2 [|c3 t]]]]; cbn [List.length] in Hl;
    try (split; [intros _; lia | reflexivity]).
  split; [|lia]. intros E. exfalso.
  destruct (Atoi c0), (Atoi c1), (Atoi c2); discriminate.
Qed.

Lemma tsToSecs_components_witness :
  tsToSecs "12:30"
  = Panic (PanicString "Expected 3 components in the timestamp").
Proof.
  apply (proj2 (tsToSecs_components "12:30")). vm_compute. discriminate.
Defined.

(** X4. [tsToSecs] takes components of any width and any magnitude,
    signed ones and minutes and seconds above 59 included, and returns
    [3600*hh + 60*mm + ss] as an [int]. *)
Theorem tsToSecs_any_width (w0 w1 w2 : nat) (hh mm ss : Z) :
  GoInt.in_range hh -> GoInt.in_range mm -> GoInt.in_range ss ->
  tsToSecs (fmt_int w0 hh ++ ":" ++ fmt_int w1 mm ++ ":" ++ fmt_int w2 ss)
  = Ok (GoInt.wrap (3600 * hh + 60 * mm + ss)).
Proof.
  intros Hh Hm Hs. unfold tsToSecs. cbn [append].
  rewrite Split_piece by now apply fmt_int_num_chars.
  rewrite Split_piece by now apply fmt_int_num_chars.
  rewrite Split_last by now apply fmt_int_num_chars.
  rewrite !Atoi_fmt_int by assumption. cbn [panic_if_err bind].
  unfold GoInt.mul. rewrite wrap_sum3. reflexivity.
Qed.

Lemma tsToSecs_any_width_witness :
  tsToSecs "1:90:5" = Ok 9005.
Proof.
  apply (tsToSecs_any_width 0 0 0 1 90 5); vm_compute; split; discriminate.
Defined.

(** X5. The text of a number of seconds from 0 on is eight characters
    long exactly up to 359999, that is 99:59:59. *)
Theorem secsToTs_width (secs : Z) :
  0 <= secs <= GoInt.max_int ->
  String.length (secsToTs secs) = 8%nat <-> secs <= 359999.
Proof.
  intros H.
  assert (Hr : GoInt.in_range secs)
    by (unfold GoInt.in_range, GoInt.min_int, GoInt.max_int in *; lia).
  rewrite (secsToTs_fields secs Hr), !length_append. cbn [String.length].
  assert (Hhh : 0 <= Z.quot (Z.quot secs 60) 60)
    by (Z.to_euclidean_division_equations; lia).
  assert (Hmm : 0 <= Z.rem (Z.quot secs 60) 60 <= 99)
    by (Z.to_euclidean_division_equations; lia).
  assert (Hss : 0 <= Z.rem secs 60 <= 99)
    by (Z.to_euclidean_division_equations; lia).
  rewrite (proj1 (fmt_02d_length _ (proj1 Hmm)) (proj2 Hmm)).
  rewrite (proj1 (fmt_02d_length _ (proj1 Hss)) (proj2 Hss)).
  destruct (fmt_02d_length _ Hhh) as [Hle Hgt].
  destruct (Z_le_gt_dec (Z.quot (Z.quot secs 60) 60) 99) as [Hc|Hc].
  - rewrite (Hle Hc). split; [intros _|reflexivity].
    Z.to_euclidean_division_equations; lia.
  - specialize (Hgt ltac:(lia)). split; [intros E; lia|].
    intros Hs. exfalso. Z.to_euclidean_division_equations; lia.
Qed.

Lemma secsToTs_width_witness :
  String.length (secsToTs 359999) = 8%nat.
Proof.
  apply (proj2 (secsToTs_width 359999 ltac:(vm_compute; split; discriminate))).
  lia.
Defined.

(** X6. [Duration] returns exactly when the end is not before the start;
    what it returns is [end - start] when that is an [int], and otherwise
    it is [end - start - 2^64], a negative number. *)
Theorem Duration_value (c : Chunk) (end_ : Z) :
  GoInt.in_range (Start c) -> GoInt.in_range end_ ->
  (is_ok (Duration c end_) = true <-> Start c <= end_)
  /\ forall d, Duration c end_ = Ok d ->
       (end_ - Start c <= GoInt.max_int /\ d = end_ - Start c /\ 0 <= d)
       \/ (GoInt.max_int < end_ - Start c /\ d = end_ - Start c - 2 ^ 64 /\ d < 0).
Proof.
  intros Hs He. unfold Duration. destruct (Z.ltb_spec end_ (Start c)) as [Hlt|Hge].
  - split; [split; [discriminate | lia] | discriminate].
  - split; [split; [lia | reflexivity]|]. intros d [= <-].
    unfold GoInt.sub, GoInt.wrap, GoInt.in_range, GoInt.min_int, GoInt.max_int in *.
    change (2 ^ 63) with 9223372036854775808 in *.
    change (2 ^ 64) with 18446744073709551616 in *.
    Z.to_euclidean_division_equations. lia.
Qed.

Lemma Duration_value_witness :
  is_ok (Duration (mkChunk 10 20 [] "chunk-00.mp4") 25) = true.
Proof.
  apply (proj1 (Duration_value (mkChunk 10 20 [] "chunk-00.mp4") 25
                  ltac:(vm_compute; split; discriminate)
                  ltac:(vm_compute; split; discriminate))).
  cbn. lia.
Defined.

(* ================================================================== *)
(** ** More on the parser *)

Section ParserMore.
Import GoInt.

Lemma load_names_ok reads delay cs :
  loadChunksFromReader reads delay = Ok cs -> names_ok cs.
Proof.
  unfold loadChunksFromReader. intros E.
  destruct (loadLoop delay (mkLoadState [] None) reads) as [st|v] eqn:El;
    [|discriminate].
  cbn [bind] in E. destruct (chunkCurrent st); [discriminate|].
  injection E as <-.
  apply (loadLoop_invariant (fun s => names_ok (chunks s)) markerStep_names
           reads delay (mkLoadState [] None) st); [|exact El].
  intros [|k] c' H0; discriminate.
Qed.


Lemma runMarkers_app ms1 : forall st ms2,
  runMarkers st (ms1 ++ ms2)
  = (st' <- runMarkers st ms1 ;; runMarkers st' ms2).
Proof.
  induction ms1 as [|m ms1 IH]; intros st ms2; cbn [app runMarkers].
  - reflexivity.
  - destruct (markerStep st m); cbn [bind]; [apply IH | reflexivity].
Qed.

(** The machine keeps every marker, in order. *)
Lemma runMarkers_seen ms : forall st st',
  runMarkers st ms = Ok st' -> seenMarkers st' = (seenMarkers st ++ ms)%list.
Proof.
  induction ms as [|[t ignored] ms IH]; intros st st' E; cbn [runMarkers] in E.
  - injection E as <-. now rewrite app_nil_r.
  - destruct (markerStep st (t, ignored)) as [st1|v] eqn:Es; [|discriminate].
    cbn [bind] in E. rewrite (IH _ _ E).
    change ((t, ignored) :: ms) with ([(t, ignored)] ++ ms)%list.
    rewrite app_assoc. f_equal.
    unfold markerStep in Es. unfold seenMarkers, pendingMarkers.
    destruct (chunkCurrent st) as [cur|], ignored; try discriminate;
      injection Es as <-; cbn [chunks chunkCurrent Start Ignored].
    + rewrite map_app. cbn [map]. now rewrite <- app_assoc.
    + rewrite flat_map_app. cbn [flat_map]. unfold chunkMarkers.
      cbn [Start End Ignored]. now rewrite !app_nil_r, <- app_assoc.
    + cbn [map]. now rewrite app_nil_r.
Qed.

Lemma load_keeps_markers reads delay ms cs :
  markersOf delay reads = Some ms ->
  loadChunksFromReader reads delay = Ok cs ->
  flat_map chunkMarkers cs = ms.
Proof.
  intros Em E. rewrite (load_markers _ _ _ Em) in E.
  destruct (runMarkers (mkLoadState [] None) ms) as [st|v] eqn:Er; [|discriminate].
  cbn [bind] in E. pose proof (runMarkers_seen ms _ _ Er) as Hs.
  unfold seenMarkers, pendingMarkers in Hs. cbn [chunks chunkCurrent] in Hs.
  destruct (chunkCurrent st); [discriminate|]. injection E as <-.
  cbn [flat_map app] in Hs. now rewrite app_nil_r in Hs.
Qed.

Lemma chunkTimes_markers cs :
  map fst (flat_map chunkMarkers cs) = flat_map chunkTimes cs.
Proof.
  induction cs as [|c cs IH]; cbn [flat_map]; [reflexivity|].
  rewrite map_app. f_equal; [|exact IH]. unfold chunkMarkers, chunkTimes.
  cbn [map fst]. rewrite map_app, map_map. cbn [map fst].
  now rewrite map_id.
Qed.

End ParserMore.

(** X7. On a stream of good records the parse succeeds exactly when the
    non-ignore markers are even in number and every ignore-marker has an
    odd number of them before it. *)
Theorem parse_succeeds_iff (reads : list ReadResult) (delay : Z) (ms : list Marker) :
  markersOf delay reads = Some ms ->
  is_ok (loadChunksFromReader reads delay)
  = Nat.even (countNonIgnore ms) && ignoresInsideChunks ms.
Proof.
  intros Em. rewrite (load_markers _ _ _ Em). unfold ignoresInsideChunks.
  destruct (ignoresInsideFrom 0 ms) eqn:Hin.
  - destruct (runMarkers_inside ms (mkLoadState [] None) Hin) as (st & Er & Ec).
    rewrite Er. cbn [bind]. pose proof (odd_consumed st) as Ho. rewrite Ec in Ho.
    change (consumed (mkLoadState [] None)) with 0%nat in Ho.
    rewrite Nat.add_0_l, <- Nat.negb_even in Ho. rewrite andb_true_r.
    unfold is_open in Ho.
    destruct (chunkCurrent st), (Nat.even (countNonIgnore ms));
      try discriminate; reflexivity.
  - destruct (runMarkers_outside ms (mkLoadState [] None) Hin) as (t & _ & Er).
    rewrite Er, andb_false_r. reflexivity.
Qed.

Lemma parse_succeeds_iff_witness :
  is_ok (loadChunksFromReader
           [inl ["10"; ""]; inl ["12"; "ignore"]; inl ["20"; ""]; inl ["30"; ""]] 7)
  = false.
Proof.
  apply (parse_succeeds_iff
           [inl ["10"; ""]; inl ["12"; "ignore"]; inl ["20"; ""]; inl ["30"; ""]] 7
           [(17, false); (19, true); (27, false); (37, false)]).
  reflexivity.
Defined.



(** X9. A successful parse keeps every marker and their order: the
    start, the ignored timestamps and the end of the chunks, read in
    sequence, are the markers of the stream. *)
Theorem parse_keeps_markers (reads : list ReadResult) (delay : Z)
    (ms : list Marker) (cs : list Chunk) :
  markersOf delay reads = Some ms ->
  loadChunksFromReader reads delay = Ok cs ->
  flat_map chunkMarkers cs = ms.
Proof.
  apply load_keeps_markers.
Qed.

Lemma parse_keeps_markers_witness :
  flat_map chunkMarkers
    [mkChunk 10 20 [12] "chunk-00.mp4"; mkChunk 30 40 [] "chunk-01.mp4"]
  = [(10, false); (12, true); (20, false); (30, false); (40, false)].
Proof.
  apply (parse_keeps_markers
           [inl ["10"; ""]; inl ["12"; "ignore"]; inl ["20"; ""];
            inl ["30"; ""]; inl ["40"; ""]] 0);
    reflexivity.
Defined.

(** X10. Chunks in time order: when the timestamps of the stream, delay
    added, never decrease, the timestamps of the chunks of a successful
    parse, read chunk after chunk as start, ignored timestamps and end,
    never decrease either; a chunk starts no earlier than the one before
    it ends. *)
Theorem parse_in_time_order (reads : list ReadResult) (delay : Z)
    (ms : list Marker) (cs : list Chunk) :
  markersOf delay reads = Some ms ->
  nondecreasing (map fst ms) = true ->
  loadChunksFromReader reads delay = Ok cs ->
  nondecreasing (flat_map chunkTimes cs) = true.
Proof.
  intros Em Hs E.
  now rewrite <- chunkTimes_markers, (load_keeps_markers _ _ _ _ Em E).
Qed.

Lemma parse_in_time_order_witness :
  nondecreasing
    (flat_map chunkTimes
       [mkChunk 10 20 [12] "chunk-00.mp4"; mkChunk 20 40 [] "chunk-01.mp4"])
  = true.
Proof.
  apply (parse_in_time_order
           [inl ["10"; ""]; inl ["12"; "ignore"]; inl ["20"; ""];
            inl ["20"; ""]; inl ["40"; ""]] 0
           [(10, false); (12, true); (20, false); (20, false); (40, false)]);
    reflexivity.
Defined.

(** X11. The names of the chunks of a successful parse are pairwise
    different, the number of chunks being an [int]. *)
Theorem parse_names_distinct (reads : list ReadResult) (delay : Z) (cs : list Chunk) :
  loadChunksFromReader reads delay = Ok cs ->
  len cs <= GoInt.max_int ->
  NoDup (map Name cs).
Proof.
  intros E Hlen. pose proof (load_names_ok _ _ _ E) as Hn.
  apply NoDup_nth_error. intros i j Hi Hij.
  rewrite length_map in Hi. rewrite !nth_error_map in Hij.
  destruct (nth_error cs i) as [ci|] eqn:Ei;
    [|apply nth_error_None in Ei; lia].
  destruct (nth_error cs j) as [cj|] eqn:Ej; [|discriminate].
  assert (Hj : (j < List.length cs)%nat)
    by (apply nth_error_Some; congruence).
  cbn [option_map] in Hij. injection Hij as Hij.
  rewrite (Hn i ci Ei), (Hn j cj Ej) in Hij.
  cbn [append] in Hij. injection Hij as Hij.
  apply append_cancel_r in Hij.
  assert (Hr : forall k, (k < List.length cs)%nat -> GoInt.in_range (Z.of_nat k)).
  { intros k Hk. unfold len, GoInt.in_range, GoInt.min_int, GoInt.max_int in *.
    change (2 ^ 63) with 9223372036854775808 in *. lia. }
  pose proof (Atoi_fmt_int 2 _ (Hr i Hi)) as Ai.
  pose proof (Atoi_fmt_int 2 _ (Hr j Hj)) as Aj.
  unfold fmt_02d in Hij. rewrite Hij, Aj in Ai. injection Ai as Ai. lia.
Qed.

Lemma parse_names_distinct_witness :
  NoDup (map Name [mkChunk 10 20 [] "chunk-00.mp4"; mkChunk 30 40 [] "chunk-01.mp4"]).
Proof.
  apply (parse_names_distinct [inl ["10"]; inl ["20"]; inl ["30"]; inl ["40"]] 0).
  - reflexivity.
  - vm_compute. discriminate.
Defined.

Section Listing.
Import GoInt.

Lemma readMarker_recordOfMarker m :
  in_range (fst m) ->
  markerOfRead 0 (recordOfMarker m) = Some m.
Proof.
  destruct m as [t ignored]. cbn [fst snd]. intros Ht.
  unfold markerOfRead, recordOfMarker, readMarker. cbn [fst snd].
  change (len [fmt_d t; if ignored then "ignore" else ""]) with 2.
  cbn [Z.leb Z.ltb Z.compare Pos.compare Pos.compare_cont nth andb].
  unfold fmt_d. rewrite (Atoi_fmt_int 0 t Ht). cbn [panic_if_err bind].
  rewrite (add_0_r t Ht). now destruct ignored.
Qed.

Lemma markersOf_records ms :
  Forall (fun m => in_range (fst m)) ms ->
  markersOf 0 (map recordOfMarker ms) = Some ms.
Proof.
  induction 1 as [|m ms Hm _ IH]; cbn [map markersOf]; [reflexivity|].
  now rewrite (readMarker_recordOfMarker m Hm), IH.
Qed.

Lemma runMarkers_ignores l : forall pre s e ign n,
  runMarkers (mkLoadState pre (Some (mkChunk s e ign n)))
    (map (fun t => (t, true)) l)
  = Ok (mkLoadState pre (Some (mkChunk s e (ign ++ l) n))).
Proof.
  induction l as [|t l IH]; intros pre s e ign n; cbn [map runMarkers].
  - now rewrite app_nil_r.
  - cbn [markerStep chunkCurrent chunks bind Start End Ignored Name].
    rewrite IH, <- app_assoc. reflexivity.
Qed.

Lemma runMarkers_chunk pre c :
  runMarkers (mkLoadState pre None) (chunkMarkers c)
  = Ok (mkLoadState
          (pre ++ [mkChunk (Start c) (End c) (Ignored c)
                     ("chunk-" ++ fmt_02d (len pre) ++ ".mp4")]) None).
Proof.
  unfold chunkMarkers. cbn [runMarkers markerStep chunkCurrent chunks bind].
  rewrite runMarkers_app, runMarkers_ignores. reflexivity.
Qed.

(** The machine rebuilds a list of chunks from its markers, when the
    names are the ones it gives. *)
Lemma runMarkers_chunks cs : forall pre,
  names_ok (pre ++ cs) ->
  runMarkers (mkLoadState pre None) (flat_map chunkMarkers cs)
  = Ok (mkLoadState (pre ++ cs) None).
Proof.
  induction cs as [|c cs IH]; intros pre Hn; cbn [flat_map].
  - now rewrite app_nil_r.
  - rewrite runMarkers_app, runMarkers_chunk. cbn [bind].
    assert (Ec : mkChunk (Start c) (End c) (Ignored c)
                   ("chunk-" ++ fmt_02d (len pre) ++ ".mp4") = c).
    { specialize (Hn (List.length pre) c).
      rewrite nth_error_app2, Nat.sub_diag in Hn by lia.
      specialize (Hn eq_refl). unfold len. rewrite <- Hn. now destruct c. }
    rewrite Ec.
    replace (pre ++ c :: cs)%list with ((pre ++ [c]) ++ cs)%list in *
      by now rewrite <- app_assoc.
    now apply IH.
Qed.

End Listing.

(** X12. Parsing undoes listing: the records that spell the markers of a
    list of chunks, whose timestamps are [int]s and whose names are the
    ones the parser gives, parse with delay 0 to that list. *)
Theorem parse_of_listing (cs : list Chunk) :
  Forall chunk_in_range cs ->
  names_ok cs ->
  loadChunksFromReader (map recordOfMarker (flat_map chunkMarkers cs)) 0 = Ok cs.
Proof.
  intros Hr Hn.
  assert (Hm : Forall (fun m => GoInt.in_range (fst m)) (flat_map chunkMarkers cs)).
  { clear Hn.
    induction Hr as [|c cs (Hs & He & Hi) _ IH]; cbn [flat_map]; [constructor|].
    apply Forall_app. split; [|exact IH]. unfold chunkMarkers.
    constructor; [exact Hs|]. apply Forall_app. split.
    - apply Forall_map. eapply Forall_impl; [|exact Hi]. auto.
    - constructor; [exact He | constructor]. }
  rewrite (load_markers _ 0 _ (markersOf_records _ Hm)).
  rewrite (runMarkers_chunks cs [] Hn). reflexivity.
Qed.

Lemma parse_of_listing_witness :
  loadChunksFromReader
    (map recordOfMarker
       (flat_map chunkMarkers
          [mkChunk (-5) 20 [12; 3] "chunk-00.mp4"; mkChunk 30 40 [] "chunk-01.mp4"])) 0
  = Ok [mkChunk (-5) 20 [12; 3] "chunk-00.mp4"; mkChunk 30 40 [] "chunk-01.mp4"].
Proof.
  apply (parse_of_listing
           [mkChunk (-5) 20 [12; 3] "chunk-00.mp4"; mkChunk 30 40 [] "chunk-01.mp4"]).
  - repeat constructor; vm_compute; discriminate.
  - intros [|[|[|k]]] c E; cbn in E; try discriminate; injection E as <-; reflexivity.
Defined.

(* ================================================================== *)
(** ** More on the highlights *)

Section HighlightsMore.
Import GoInt.

Lemma Duration_cases c t :
  (Start c <= t /\ Duration c t = Ok (sub t (Start c)))
  \/ (t < Start c /\ Duration c t = Panic assertionFailed).
Proof.
  unfold Duration. destruct (Z.ltb_spec t (Start c)); [right | left]; auto.
Qed.

Lemma highlightIgnored_backward secs c ignored : forall hs,
  ~ Forall (fun t => Start c <= t) ignored ->
  highlightIgnored secs c ignored hs = Panic assertionFailed.
Proof.
  induction ignored as [|t rest IH]; intros hs H; cbn [highlightIgnored].
  - exfalso. apply H. constructor.
  - destruct (Duration_cases c t) as [[Ht ->]|[Ht ->]]; cbn [bind]; [|reflexivity].
    apply IH. intros Hr. apply H. now constructor.
Qed.

Lemma highlightLoop_backward cs : forall secs hs,
  ~ Forall chunk_forward cs ->
  highlightLoop cs secs hs = Panic assertionFailed.
Proof.
  induction cs as [|c cs IH]; intros secs hs H; cbn [highlightLoop].
  - exfalso. apply H. constructor.
  - destruct (Forall_dec (fun t => Start c <= t)
                (fun t => Z_le_dec (Start c) t) (Ignored c)) as [Hi|Hi].
    + rewrite (highlightIgnored_forward secs c _ hs Hi). cbn [bind].
      destruct (Duration_cases c (End c)) as [[He ->]|[He ->]]; cbn [bind];
        [|reflexivity].
      apply IH. intros Hr. apply H. constructor; [split|]; assumption.
    + now rewrite (highlightIgnored_backward secs c _ hs Hi).
Qed.

Lemma filter_ignored_nil secs c ignored :
  filter isCut
    (map (fun t => mkHighlight (secsToTs (add secs (sub t (Start c)))) "ignored")
       ignored) = [].
Proof. induction ignored; cbn [map filter isCut message]; auto. Qed.

Lemma isCut_cut ts : isCut (mkHighlight ts "cut") = true.
Proof. reflexivity. Qed.

Lemma cuts_highlightsFrom cs : forall secs,
  List.length (filter isCut (highlightsFrom secs cs)) = List.length cs.
Proof.
  induction cs as [|c cs IH]; intros secs; cbn [highlightsFrom]; [reflexivity|].
  cbv zeta. rewrite filter_app, filter_ignored_nil. cbn [app filter].
  rewrite isCut_cut. cbn [List.length]. now rewrite IH.
Qed.

Lemma length_highlightsFrom cs : forall secs,
  List.length (highlightsFrom secs cs) = (List.length cs + totalIgnored cs)%nat.
Proof.
  unfold totalIgnored.
  induction cs as [|c cs IH]; intros secs; cbn [highlightsFrom flat_map];
    [reflexivity|].
  cbv zeta. rewrite !length_app, length_map. cbn [List.length]. rewrite IH. lia.
Qed.

Lemma messages_highlightsFrom cs : forall secs,
  Forall (fun h => message h = "cut" \/ message h = "ignored")
    (highlightsFrom secs cs).
Proof.
  induction cs as [|c cs IH]; intros secs; cbn [highlightsFrom]; [constructor|].
  cbv zeta. apply Forall_app. split.
  - apply Forall_map, Forall_forall. intros t _. now right.
  - constructor; [now left | apply IH].
Qed.

(** The cut of the chunk at place [k] stands at the time elapsed before
    the sequence plus the durations of the chunks up to it. *)
Lemma cut_highlightsFrom cs : forall secs k,
  (k < List.length cs)%nat ->
  nth_error (filter isCut (highlightsFrom secs cs)) k
  = Some (mkHighlight
            (secsToTs (wrap (secs + sumDurations (firstn (S k) cs)))) "cut").
Proof.
  induction cs as [|c cs IH]; intros secs k Hk; cbn [List.length] in Hk; [lia|].
  cbn [highlightsFrom]. cbv zeta.
  rewrite filter_app, filter_ignored_nil. cbn [app filter].
  rewrite isCut_cut.
  destruct k as [|k].
  - cbn [nth_error firstn sumDurations fold_right]. do 3 f_equal.
    unfold add, sub. rewrite wrap_add_r. f_equal. lia.
  - cbn [nth_error]. rewrite IH by lia. do 3 f_equal.
    change (firstn (S (S k)) (c :: cs)) with (c :: firstn (S k) cs).
    cbn [sumDurations fold_right]. fold (sumDurations (firstn (S k) cs)).
    unfold add, sub. rewrite wrap_add_r, wrap_add_l. f_equal. lia.
Qed.

Lemma chunk_forward_dec c : {chunk_forward c} + {~ chunk_forward c}.
Proof.
  unfold chunk_forward.
  destruct (Z_le_dec (Start c) (End c)) as [He|He];
    [|right; intros [H _]; contradiction].
  destruct (Forall_dec (fun t => Start c <= t)
              (fun t => Z_le_dec (Start c) t) (Ignored c)) as [Hi|Hi];
    [left; auto | right; intros [_ H]; contradiction].
Qed.

(** What [highlightChunks] returns, it returns on chunks that run
    forward, and it is [highlightsFrom]. *)
Lemma highlightChunks_inv cs hs :
  highlightChunks cs = Ok hs ->
  Forall chunk_forward cs /\ hs = highlightsFrom 0 cs.
Proof.
  intros E. unfold highlightChunks in E.
  destruct (Forall_dec chunk_forward chunk_forward_dec cs) as [Hf|Hf].
  - rewrite (highlightLoop_forward cs 0 [] Hf) in E. injection E as <-. auto.
  - rewrite (highlightLoop_backward cs 0 [] Hf) in E. discriminate.
Qed.

End HighlightsMore.

(** X13. [highlightChunks] returns exactly on the lists in which every
    chunk has [start <= end] and [start <= t] for its ignored timestamps;
    on any other list it panics with the failed assertion of [Duration]. *)
Theorem highlight_returns_iff (cs : list Chunk) :
  ((exists hs, highlightChunks cs = Ok hs) <-> Forall chunk_forward cs)
  /\ (~ Forall chunk_forward cs -> highlightChunks cs = Panic assertionFailed).
Proof.
  assert (Hb : ~ Forall chunk_forward cs ->
               highlightChunks cs = Panic assertionFailed)
    by apply highlightLoop_backward.
  split; [split|exact Hb].
  - intros (hs & E). apply (highlightChunks_inv cs hs E).
  - intros Hf. exists (highlightsFrom 0 cs). unfold highlightChunks.
    now rewrite (highlightLoop_forward cs 0 [] Hf).
Qed.

Lemma highlight_returns_iff_witness :
  highlightChunks [mkChunk 10 20 [] "chunk-00.mp4"; mkChunk 30 40 [25] "chunk-01.mp4"]
  = Panic assertionFailed.
Proof.
  apply (proj2 (highlight_returns_iff
                  [mkChunk 10 20 [] "chunk-00.mp4"; mkChunk 30 40 [25] "chunk-01.mp4"])).
  intros H. apply Forall_inv_tail, Forall_inv in H. destruct H as [_ H].
  apply Forall_inv in H. cbn in H. lia.
Defined.

(** X14. The highlights that [highlightChunks] returns are one "cut" for
    each chunk and one "ignored" for each ignored timestamp, and nothing
    else. *)
Theorem highlight_census (cs : list Chunk) (hs : list Highlight) :
  highlightChunks cs = Ok hs ->
  List.length hs = (List.length cs + totalIgnored cs)%nat
  /\ List.length (filter isCut hs) = List.length cs
  /\ Forall (fun h => message h = "cut" \/ message h = "ignored") hs.
Proof.
  intros E.
  destruct (highlightChunks_inv cs hs E) as [Hf ->].
  auto using length_highlightsFrom, cuts_highlightsFrom, messages_highlightsFrom.
Qed.

Lemma highlight_census_witness :
  List.length [mkHighlight "00:00:10" "cut"; mkHighlight "00:00:15" "ignored";
               mkHighlight "00:00:25" "cut"]
  = (2 + 1)%nat.
Proof.
  apply (highlight_census
           [mkChunk 10 20 [] "chunk-00.mp4"; mkChunk 30 45 [35] "chunk-01.mp4"]).
  reflexivity.
Defined.

(** X15. In the highlights that [highlightChunks] returns, the "cut" of
    the chunk at place [k] decodes to the sum of [end - start] over the
    chunks up to and including it, as an [int]. *)
Theorem cut_at_running_total (cs : list Chunk) (hs : list Highlight) (k : nat) :
  highlightChunks cs = Ok hs ->
  (k < List.length cs)%nat ->
  exists h, nth_error (filter isCut hs) k = Some h
            /\ tsToSecs (timestamp h)
               = Ok (GoInt.wrap (sumDurations (firstn (S k) cs))).
Proof.
  intros E Hk.
  destruct (highlightChunks_inv cs hs E) as [Hf ->].
  eexists. split; [apply (cut_highlightsFrom cs 0 k Hk)|].
  cbn [timestamp]. apply tsToSecs_secsToTs, wrap_in_range.
Qed.

Lemma cut_at_running_total_witness :
  exists h,
    nth_error (filter isCut [mkHighlight "00:00:10" "cut";
                             mkHighlight "00:00:15" "ignored";
                             mkHighlight "00:00:25" "cut"]) 1 = Some h
    /\ tsToSecs (timestamp h) = Ok 25.
Proof.
  apply (cut_at_running_total
           [mkChunk 10 20 [] "chunk-00.mp4"; mkChunk 30 45 [35] "chunk-01.mp4"]
           _ 1%nat); [reflexivity | cbn; lia].
Defined.

Section Timeline.
Import GoInt.

Lemma sumDurations_nonneg cs : Forall chunk_ordered cs -> 0 <= sumDurations cs.
Proof.
  induction 1 as [|c cs [Hc _] _ IH]; cbn [sumDurations fold_right]; [lia|].
  fold (sumDurations cs). lia.
Qed.

Lemma nondecreasingFrom_app lo l1 : forall x l2,
  nondecreasingFrom lo l1 = true ->
  Forall (fun t => t <= x) l1 ->
  lo <= x ->
  nondecreasingFrom x l2 = true ->
  nondecreasingFrom lo (l1 ++ x :: l2) = true.
Proof.
  revert lo. induction l1 as [|a l1 IH]; intros lo x l2 H1 Hb Hlo H2;
    cbn [app nondecreasingFrom] in *.
  - rewrite H2, andb_true_r. now apply Z.leb_le.
  - apply andb_prop in H1 as [Ha H1]. rewrite Ha. cbn [andb].
    inversion Hb; subst. apply IH; auto.
Qed.

(** The times at which the ignored timestamps of a chunk are called out,
    [secs] having elapsed before the chunk. *)
Lemma ignored_times secs c lo ignored :
  0 <= secs ->
  secs + (End c - Start c) <= max_int ->
  Start c <= lo ->
  Forall (fun t => Start c <= t <= End c) ignored ->
  nondecreasingFrom lo ignored = true ->
  let ts := map (fun t => secs + (t - Start c)) ignored in
  map (fun h => tsToSecs (timestamp h))
    (map (fun t => mkHighlight (secsToTs (add secs (sub t (Start c)))) "ignored")
       ignored)
  = map Ok ts
  /\ nondecreasingFrom (secs + (lo - Start c)) ts = true
  /\ Forall (fun t => secs <= t <= secs + (End c - Start c)) ts.
Proof.
  intros Hsecs Hmax. revert lo.
  induction ignored as [|t rest IH]; intros lo Hlo Hb Hs; cbn [map nondecreasingFrom].
  - repeat split. constructor.
  - inversion Hb as [|? ? Ht Hrest]; subst.
    cbn [nondecreasingFrom] in Hs. apply andb_prop in Hs as [Hlt Hs].
    apply Z.leb_le in Hlt.
    destruct (IH t ltac:(lia) Hrest Hs) as (E & Hn & Hf). cbv zeta in *.
    rewrite E. cbn [timestamp]. repeat split.
    + f_equal. unfold add, sub. rewrite wrap_add_r.
      assert (Hr : in_range (secs + (t - Start c)))
        by (unfold in_range, min_int, max_int in *; lia).
      rewrite (wrap_small _ Hr). now apply tsToSecs_secsToTs.
    + rewrite Hn, andb_true_r. apply Z.leb_le. lia.
    + constructor; [lia | exact Hf].
Qed.

Lemma times_highlightsFrom cs : forall secs,
  0 <= secs ->
  Forall chunk_ordered cs ->
  Forall (fun c => nondecreasing (Ignored c) = true) cs ->
  secs + sumDurations cs <= max_int ->
  exists ts,
    map (fun h => tsToSecs (timestamp h)) (highlightsFrom secs cs) = map Ok ts
    /\ nondecreasingFrom secs ts = true
    /\ Forall (fun t => secs <= t <= secs + sumDurations cs) ts.
Proof.
  induction cs as [|c cs IH]; intros secs Hsecs Ho Hs Hmax.
  - exists []. repeat split. constructor.
  - inversion Ho as [|? ? [Hc Hi] Ho']; subst.
    inversion Hs as [|? ? Hsc Hs']; subst.
    cbn [sumDurations fold_right] in Hmax. fold (sumDurations cs) in Hmax.
    pose proof (sumDurations_nonneg cs Ho') as Hnn.
    set (d := End c - Start c) in *.
    assert (Hd : add secs (sub (End c) (Start c)) = secs + d).
    { unfold add, sub. rewrite wrap_add_r. apply wrap_small.
      unfold in_range, min_int, max_int in *. lia. }
    destruct (IH (secs + d) ltac:(lia) Ho' Hs' ltac:(lia)) as (ts2 & E2 & N2 & F2).
    assert (Hfrom : nondecreasingFrom (Start c) (Ignored c) = true).
    { destruct (Ignored c) as [|t rest]; [reflexivity|].
      cbn [nondecreasing nondecreasingFrom] in *. rewrite Hsc, andb_true_r.
      apply Z.leb_le. inversion Hi; subst. lia. }
    destruct (ignored_times secs c (Start c) (Ignored c) Hsecs ltac:(lia)
                ltac:(lia) Hi Hfrom) as (E1 & N1 & F1). cbv zeta in *.
    replace (secs + (Start c - Start c)) with secs in N1 by lia.
    exists (map (fun t => secs + (t - Start c)) (Ignored c) ++ (secs + d) :: ts2)%list.
    cbn [highlightsFrom sumDurations fold_right]. cbv zeta.
    fold (sumDurations cs). fold d. rewrite Hd. repeat split.
    + rewrite !map_app, E1. cbn [map timestamp]. rewrite E2. do 2 f_equal.
      apply tsToSecs_secsToTs. unfold in_range, min_int, max_int in *. lia.
    + apply nondecreasingFrom_app; auto; [|lia].
      eapply Forall_impl; [|exact F1]. cbv beta. fold d. intros a Ha. lia.
    + apply Forall_app. split.
      * eapply Forall_impl; [|exact F1]. cbv beta. fold d. intros a Ha. lia.
      * constructor; [lia|].
        eapply Forall_impl; [|exact F2]. cbv beta. intros a Ha. lia.
Qed.

End Timeline.

(** X16. The timeline never goes back: when every chunk has its ignored
    timestamps between its start and its end and in non-decreasing order,
    and the sum of the durations is an [int], the timestamps of the
    highlights that [highlightChunks] returns decode, in order, to
    non-negative numbers of seconds that never decrease and never pass the
    sum of the durations. *)
Theorem highlight_times_nondecreasing (cs : list Chunk) :
  Forall chunk_ordered cs ->
  Forall (fun c => nondecreasing (Ignored c) = true) cs ->
  sumDurations cs <= GoInt.max_int ->
  exists hs ts,
    highlightChunks cs = Ok hs
    /\ map (fun h => tsToSecs (timestamp h)) hs = map Ok ts
    /\ nondecreasingFrom 0 ts = true
    /\ Forall (fun t => t <= sumDurations cs) ts.
Proof.
  intros Ho Hs Hmax.
  destruct (times_highlightsFrom cs 0 ltac:(lia) Ho Hs ltac:(lia))
    as (ts & E & N & F).
  exists (highlightsFrom 0 cs), ts. repeat split; auto.
  - unfold highlightChunks. rewrite highlightLoop_forward; [reflexivity|].
    eapply Forall_impl; [|exact Ho]. intros c [He Hi]. split; [exact He|].
    eapply Forall_impl; [|exact Hi]. cbv beta. intros t Ht. lia.
  - eapply Forall_impl; [|exact F]. cbv beta. intros t Ht. lia.
Qed.

Lemma highlight_times_nondecreasing_witness :
  exists hs ts,
    highlightChunks
      [mkChunk 10 20 [12; 15] "chunk-00.mp4"; mkChunk 5 9 [] "chunk-01.mp4"]
    = Ok hs
    /\ map (fun h => tsToSecs (timestamp h)) hs = map Ok ts
    /\ nondecreasingFrom 0 ts = true
    /\ Forall (fun t => t <= 14) ts.
Proof.
  apply (highlight_times_nondecreasing
           [mkChunk 10 20 [12; 15] "chunk-00.mp4"; mkChunk 5 9 [] "chunk-01.mp4"]).
  - repeat constructor; cbn; lia.
  - repeat constructor.
  - vm_compute. discriminate.
Defined.

(* ================================================================== *)
(** ** More on the subcommands *)

Section SubcommandsMore.


Lemma printHighlights_lines hs :
  printHighlights hs = (highlightLines hs, Returned tt).
Proof.
  unfold highlightLines.
  induction hs as [|h hs IH]; cbn [printHighlights map]; [reflexivity|].
  rewrite IH. reflexivity.
Qed.

(** A stream of good records that is balanced and never goes back in
    time parses to chunks that are ordered. *)
Lemma load_well_formed reads delay ms :
  markersOf delay reads = Some ms ->
  Nat.even (countNonIgnore ms) = true ->
  ignoresInsideChunks ms = true ->
  nondecreasing (map fst ms) = true ->
  exists cs, loadChunksFromReader reads delay = Ok cs
             /\ Forall chunk_ordered cs.
Proof.
  intros Em Heven Hin Hs. rewrite (load_markers _ _ _ Em).
  destruct (runMarkers_inside ms (mkLoadState [] None) Hin) as (st & Er & Ec).
  rewrite Er. cbn [bind].
  pose proof (odd_consumed st) as Hodd. rewrite Ec in Hodd.
  change (consumed (mkLoadState [] None)) with 0%nat in Hodd.
  rewrite Nat.add_0_l, <- Nat.negb_even, Heven in Hodd. unfold is_open in Hodd.
  destruct (chunkCurrent st); [discriminate|].
  exists (chunks st). split; [reflexivity|].
  destruct ms as [|[t ignored] ms'].
  - injection Er as <-. constructor.
  - apply (runMarkers_ordered ((t, ignored) :: ms') (mkLoadState [] None) t st).
    + cbn [map fst nondecreasing nondecreasingFrom] in *.
      rewrite Z.leb_refl. exact Hs.
    + split; [constructor | exact I].
    + exact Er.
Qed.

Lemma ordered_forward cs : Forall chunk_ordered cs -> Forall chunk_forward cs.
Proof.
  intros H. eapply Forall_impl; [|exact H]. intros c [He Hi]. split; [exact He|].
  eapply Forall_impl; [|exact Hi]. cbv beta. intros t Ht. lia.
Qed.

Variable open : string -> list ReadResult + GoError.

Lemma inspectSubcommand_loaded flags reads cs :
  Inspect.csvPtr flags <> "" ->
  open (Inspect.csvPtr flags) = inl reads ->
  loadChunksFromReader reads (Inspect.delayPtr flags) = Ok cs ->
  inspectSubcommand open flags
  = (Print ("Highlights:" ++ nl) ;;;
     highlights <~ lift (highlightChunks cs) ;;
     printHighlights highlights).
Proof.
  intros Hcsv Hopen Hload. unfold inspectSubcommand.
  apply String.eqb_neq in Hcsv. rewrite Hcsv.
  unfold loadChunksFromFile. rewrite Hopen. cbn [panic_if_err bind].
  rewrite Hload. cbn [lift ret andThen append].
  destruct (andThen _ _) as [out o]. reflexivity.
Qed.

Variable ffmpeg : list string -> option GoError.

Lemma ffmpegCutChunk_cases inputPath c y :
  (Start c <= End c /\ exists err, ffmpegCutChunk ffmpeg inputPath c y = Ok err)
  \/ (End c < Start c
      /\ ffmpegCutChunk ffmpeg inputPath c y = Panic assertionFailed).
Proof.
  unfold ffmpegCutChunk.
  destruct (Duration_cases c (End c)) as [[H ->]|[H ->]]; cbn [bind];
    [left | right]; eauto.
Qed.

Variable create : string -> option GoError.
Variable errorText : GoError -> string.

Lemma cutChunks_forward inputPath y cs :
  Forall (fun c => Start c <= End c) cs ->
  cutChunks ffmpeg errorText inputPath y cs
  = (cutWarnings ffmpeg errorText inputPath y cs, [], Returned tt).
Proof.
  unfold cutWarnings.
  induction 1 as [|c cs Hc _ IH]; cbn [cutChunks map joinLines fold_right];
    [reflexivity|].
  destruct (ffmpegCutChunk_cases inputPath c y) as [[_ [err E]]|[Hlt _]]; [|lia].
  rewrite E, IH. unfold orPanic.
  destruct err as [e|]; cbn; rewrite ?append_nil_r; reflexivity.
Qed.

Lemma cutChunks_backward inputPath y cs :
  ~ Forall (fun c => Start c <= End c) cs ->
  exists out,
    cutChunks ffmpeg errorText inputPath y cs = (out, [], Panicked assertionFailed).
Proof.
  induction cs as [|c cs IH]; intros H; [exfalso; apply H; constructor|].
  cbn [cutChunks].
  destruct (ffmpegCutChunk_cases inputPath c y) as [[Hc [err E]]|[_ E]];
    rewrite E; unfold orPanic; [|eexists; reflexivity].
  destruct IH as [out Eo]; [intros Hr; apply H; now constructor|].
  rewrite Eo. destruct err as [e|]; cbn; eexists; reflexivity.
Qed.

Lemma finalSubcommand_loaded flags reads cs :
  Final.csvPtr flags <> "" ->
  Final.inputPtr flags <> "" ->
  open (Final.csvPtr flags) = inl reads ->
  loadChunksFromReader reads (Final.delayPtr flags) = Ok cs ->
  finalSubcommand open create ffmpeg errorText flags
  = (cutChunks ffmpeg errorText (Final.inputPtr flags) (Final.yPtr flags) cs >>
     ffmpegGenerateConcatList create cs "ourlist.txt" >>
     orPanic (ffmpegConcatChunks ffmpeg "ourlist.txt" "output.mp4"
                (Final.yPtr flags)) >>
     say ("Highlights:" ++ nl) >>
     highlights <-- orPanic (highlightChunks cs) ;;
     ofRun (printHighlights highlights)).
Proof.
  intros Hcsv Hin Hopen Hload. unfold finalSubcommand.
  apply String.eqb_neq in Hcsv, Hin. rewrite Hcsv, Hin.
  unfold loadChunksFromFile. rewrite Hopen. cbn [panic_if_err bind].
  rewrite Hload. cbv zeta. unfold orPanic at 1.
  cbn [lift ret ofRun actThen append app].
  destruct (actThen _ _) as [[out files] o]. reflexivity.
Qed.

End SubcommandsMore.

(** X17. The [chunk] subcommand does not report a negative index: the
    check lets it through and the selection of the chunk panics, out of
    range. *)
Theorem chunk_negative_index
    (open : string -> list ReadResult + GoError)
    (ffmpeg : list string -> option GoError)
    (flags : ChunkFlags) (reads : list ReadResult) (cs : list Chunk) :
  csvPtr flags <> "" ->
  inputPtr flags <> "" ->
  open (csvPtr flags) = inl reads ->
  loadChunksFromReader reads (delayPtr flags) = Ok cs ->
  chunkPtr flags < 0 ->
  chunkSubcommand open ffmpeg flags
  = ("", Panicked (IndexOutOfRange (chunkPtr flags) (len cs))).
Proof.
  intros Hcsv Hin Hopen Hload Hneg.
  rewrite (chunkSubcommand_loaded open ffmpeg flags reads cs Hcsv Hin Hopen Hload).
  assert (0 <= len cs) by (unfold len; lia).
  destruct (Z.ltb_spec (len cs) (chunkPtr flags)); [lia|].
  unfold index. destruct (Z.ltb_spec (chunkPtr flags) 0); [|lia]. reflexivity.
Qed.

Lemma chunk_negative_index_witness :
  chunkSubcommand three_chunk_file ffmpeg_succeeds
    (mkChunkFlags "markers.csv" "input.mp4" 0 (-1) false)
  = ("", Panicked (IndexOutOfRange (-1) 3)).
Proof.
  apply (chunk_negative_index three_chunk_file ffmpeg_succeeds
           (mkChunkFlags "markers.csv" "input.mp4" 0 (-1) false)
           three_chunk_rows
           [mkChunk 10 20 [] "chunk-00.mp4"; mkChunk 30 40 [] "chunk-01.mp4";
            mkChunk 50 60 [] "chunk-02.mp4"]);
    try discriminate; reflexivity.
Defined.



(** X19. [inspect] on a well-formed file returns: when the records are
    good, the non-ignore markers are even in number, every ignore-marker
    falls inside a chunk and the timestamps never decrease, the parse
    succeeds and the subcommand prints "Highlights:" and one line for each
    highlight of the chunks, without a panic. *)
Theorem inspect_well_formed
    (open : string -> list ReadResult + GoError)
    (flags : Inspect.Flags) (reads : list ReadResult) (ms : list Marker) :
  Inspect.csvPtr flags <> "" ->
  open (Inspect.csvPtr flags) = inl reads ->
  markersOf (Inspect.delayPtr flags) reads = Some ms ->
  Nat.even (countNonIgnore ms) = true ->
  ignoresInsideChunks ms = true ->
  nondecreasing (map fst ms) = true ->
  exists cs,
    loadChunksFromReader reads (Inspect.delayPtr flags) = Ok cs
    /\ inspectSubcommand open flags
       = ("Highlights:" ++ nl ++ highlightLines (highlightsFrom 0 cs),
          Returned tt).
Proof.
  intros Hcsv Hopen Em Heven Hin Hs.
  destruct (load_well_formed _ _ _ Em Heven Hin Hs) as (cs & El & Ho).
  exists cs. split; [exact El|].
  rewrite (inspectSubcommand_loaded open flags reads cs Hcsv Hopen El).
  unfold highlightChunks.
  rewrite (highlightLoop_forward cs 0 [] (ordered_forward cs Ho)).
  cbn [app lift ret andThen Print append]. rewrite printHighlights_lines.
  reflexivity.
Qed.

Lemma inspect_well_formed_witness :
  exists cs,
    loadChunksFromReader
      [inl ["10"; ""]; inl ["17"; "ignore"]; inl ["20"; ""]] 0 = Ok cs
    /\ inspectSubcommand
         (fun _ => inl [inl ["10"; ""]; inl ["17"; "ignore"]; inl ["20"; ""]])
         (Inspect.mkFlags "markers.csv" 0)
       = ("Highlights:" ++ nl ++ highlightLines (highlightsFrom 0 cs),
          Returned tt).
Proof.
  apply (inspect_well_formed
           (fun _ => inl [inl ["10"; ""]; inl ["17"; "ignore"]; inl ["20"; ""]])
           (Inspect.mkFlags "markers.csv" 0)
           [inl ["10"; ""]; inl ["17"; "ignore"]; inl ["20"; ""]]
           [(10, false); (17, true); (20, false)]);
    try discriminate; reflexivity.
Defined.

(** X20. [inspect] on a file that parses to a chunk that goes back in
    time prints "Highlights:" and then panics with the failed assertion of
    [Duration], no highlight printed. *)
Theorem inspect_backward_chunk
    (open : string -> list ReadResult + GoError)
    (flags : Inspect.Flags) (reads : list ReadResult) (cs : list Chunk) :
  Inspect.csvPtr flags <> "" ->
  open (Inspect.csvPtr flags) = inl reads ->
  loadChunksFromReader reads (Inspect.delayPtr flags) = Ok cs ->
  ~ Forall chunk_forward cs ->
  inspectSubcommand open flags
  = ("Highlights:" ++ nl, Panicked assertionFailed).
Proof.
  intros Hcsv Hopen El Hb.
  rewrite (inspectSubcommand_loaded open flags reads cs Hcsv Hopen El).
  unfold highlightChunks. rewrite (highlightLoop_backward cs 0 [] Hb).
  reflexivity.
Qed.

Lemma inspect_backward_chunk_witness :
  inspectSubcommand (fun _ => inl [inl ["20"]; inl ["10"]])
    (Inspect.mkFlags "markers.csv" 0)
  = ("Highlights:" ++ nl, Panicked assertionFailed).
Proof.
  apply (inspect_backward_chunk (fun _ => inl [inl ["20"]; inl ["10"]])
           (Inspect.mkFlags "markers.csv" 0) [inl ["20"]; inl ["10"]]
           [mkChunk 20 10 [] "chunk-00.mp4"]);
    try discriminate; try reflexivity.
  intros H. apply Forall_inv in H. destruct H as [H _]. cbn in H. lia.
Defined.

(** X21. [final] goes on after a cut that fails: when every chunk has
    [start <= end] and [start <= t] for its ignored timestamps, the list
    file can be created and the concatenation succeeds, the subcommand
    returns; it has printed a warning for each chunk that [ffmpeg] failed
    to cut, written to "ourlist.txt" one line for every chunk, cut or not,
    and printed the highlights. *)
Theorem final_run
    (open : string -> list ReadResult + GoError)
    (create : string -> option GoError)
    (ffmpeg : list string -> option GoError)
    (errorText : GoError -> string)
    (flags : Final.Flags) (reads : list ReadResult) (cs : list Chunk) :
  Final.csvPtr flags <> "" ->
  Final.inputPtr flags <> "" ->
  open (Final.csvPtr flags) = inl reads ->
  loadChunksFromReader reads (Final.delayPtr flags) = Ok cs ->
  Forall chunk_forward cs ->
  create "ourlist.txt" = None ->
  ffmpeg (concatArgs "ourlist.txt" "output.mp4" (Final.yPtr flags)) = None ->
  finalSubcommand open create ffmpeg errorText flags
  = (cutWarnings ffmpeg errorText (Final.inputPtr flags) (Final.yPtr flags) cs
     ++ "Highlights:" ++ nl ++ highlightLines (highlightsFrom 0 cs),
     [("ourlist.txt", joinLines (map concatLine cs))],
     Returned tt).
Proof.
  intros Hcsv Hin Hopen Hload Hf Hcreate Hconcat.
  rewrite (finalSubcommand_loaded open ffmpeg create errorText flags reads cs
             Hcsv Hin Hopen Hload).
  rewrite cutChunks_forward
    by (eapply Forall_impl; [|exact Hf]; intros c [H _]; exact H).
  unfold ffmpegGenerateConcatList, ffmpegConcatChunks, highlightChunks.
  rewrite Hcreate, Hconcat, (highlightLoop_forward cs 0 [] Hf).
  cbn [actThen orPanic ofRun lift ret write say Print app].
  rewrite printHighlights_lines. reflexivity.
Qed.

Lemma final_run_witness :
  finalSubcommand three_chunk_file (fun _ => None)
    ffmpeg_only_concatenates
    (fun _ => "exit status 1") (Final.mkFlags "markers.csv" "input.mp4" 0 true)
  = ("WARNING: Failed to cut chunk: exit status 1"
     ++ "WARNING: Failed to cut chunk: exit status 1"
     ++ "WARNING: Failed to cut chunk: exit status 1"
     ++ "Highlights:" ++ nl
     ++ "00:00:10 - cut" ++ nl ++ "00:00:20 - cut" ++ nl ++ "00:00:30 - cut" ++ nl,
     [("ourlist.txt",
       "file 'chunk-00.mp4'" ++ nl ++ "file 'chunk-01.mp4'" ++ nl
       ++ "file 'chunk-02.mp4'" ++ nl)],
     Returned tt).
Proof.
  apply (final_run three_chunk_file (fun _ => None)
           ffmpeg_only_concatenates
           (fun _ => "exit status 1")
           (Final.mkFlags "markers.csv" "input.mp4" 0 true) three_chunk_rows
           [mkChunk 10 20 [] "chunk-00.mp4"; mkChunk 30 40 [] "chunk-01.mp4";
            mkChunk 50 60 [] "chunk-02.mp4"]);
    try discriminate; try reflexivity.
  repeat constructor; cbn; lia.
Defined.

(** X22. A concatenation that fails is a panic of [final]: it comes after
    the warnings of the cuts and after "ourlist.txt" is written, and no
    highlight is printed. *)
Theorem final_concat_failure
    (open : string -> list ReadResult + GoError)
    (create : string -> option GoError)
    (ffmpeg : list string -> option GoError)
    (errorText : GoError -> string)
    (flags : Final.Flags) (reads : list ReadResult) (cs : list Chunk)
    (e : GoError) :
  Final.csvPtr flags <> "" ->
  Final.inputPtr flags <> "" ->
  open (Final.csvPtr flags) = inl reads ->
  loadChunksFromReader reads (Final.delayPtr flags) = Ok cs ->
  Forall (fun c => Start c <= End c) cs ->
  create "ourlist.txt" = None ->
  ffmpeg (concatArgs "ourlist.txt" "output.mp4" (Final.yPtr flags)) = Some e ->
  finalSubcommand open create ffmpeg errorText flags
  = (cutWarnings ffmpeg errorText (Final.inputPtr flags) (Final.yPtr flags) cs,
     [("ourlist.txt", joinLines (map concatLine cs))],
     Panicked (PanicError e)).
Proof.
  intros Hcsv Hin Hopen Hload Hf Hcreate Hconcat.
  rewrite (finalSubcommand_loaded open ffmpeg create errorText flags reads cs
             Hcsv Hin Hopen Hload).
  rewrite (cutChunks_forward ffmpeg errorText _ _ cs Hf).
  unfold ffmpegGenerateConcatList, ffmpegConcatChunks.
  rewrite Hcreate, Hconcat. cbn. now rewrite append_nil_r.
Qed.

Lemma final_concat_failure_witness :
  finalSubcommand three_chunk_file (fun _ => None)
    ffmpeg_only_cuts
    (fun _ => "exit status 1") (Final.mkFlags "markers.csv" "input.mp4" 0 false)
  = ("", [("ourlist.txt",
           "file 'chunk-00.mp4'" ++ nl ++ "file 'chunk-01.mp4'" ++ nl
           ++ "file 'chunk-02.mp4'" ++ nl)],
     Panicked (PanicError (ErrExec 1))).
Proof.
  apply (final_concat_failure three_chunk_file (fun _ => None)
           ffmpeg_only_cuts
           (fun _ => "exit status 1")
           (Final.mkFlags "markers.csv" "input.mp4" 0 false) three_chunk_rows
           [mkChunk 10 20 [] "chunk-00.mp4"; mkChunk 30 40 [] "chunk-01.mp4";
            mkChunk 50 60 [] "chunk-02.mp4"]);
    try discriminate; try reflexivity.
  repeat constructor; cbn; lia.
Defined.

(** X23. A chunk that ends before it starts stops [final] while it cuts:
    the panic is the failed assertion of [Duration], and "ourlist.txt" is
    not written. *)
Theorem final_backward_chunk
    (open : string -> list ReadResult + GoError)
    (create : string -> option GoError)
    (ffmpeg : list string -> option GoError)
    (errorText : GoError -> string)
    (flags : Final.Flags) (reads : list ReadResult) (cs : list Chunk) :
  Final.csvPtr flags <> "" ->
  Final.inputPtr flags <> "" ->
  open (Final.csvPtr flags) = inl reads ->
  loadChunksFromReader reads (Final.delayPtr flags) = Ok cs ->
  ~ Forall (fun c => Start c <= End c) cs ->
  exists out,
    finalSubcommand open create ffmpeg errorText flags
    = (out, [], Panicked assertionFailed).
Proof.
  intros Hcsv Hin Hopen Hload Hb.
  rewrite (finalSubcommand_loaded open ffmpeg create errorText flags reads cs
             Hcsv Hin Hopen Hload).
  destruct (cutChunks_backward ffmpeg errorText (Final.inputPtr flags)
              (Final.yPtr flags) cs Hb) as [out E].
  rewrite E. exists out. reflexivity.
Qed.

Lemma final_backward_chunk_witness :
  exists out,
    finalSubcommand (fun _ => inl [inl ["20"]; inl ["10"]]) (fun _ => None)
      ffmpeg_succeeds (fun _ => "") (Final.mkFlags "markers.csv" "input.mp4" 0 false)
    = (out, [], Panicked assertionFailed).
Proof.
  apply (final_backward_chunk (fun _ => inl [inl ["20"]; inl ["10"]])
           (fun _ => None) ffmpeg_succeeds (fun _ => "")
           (Final.mkFlags "markers.csv" "input.mp4" 0 false)
           [inl ["20"]; inl ["10"]] [mkChunk 20 10 [] "chunk-00.mp4"]);
    try discriminate; try reflexivity.
  intros H. apply Forall_inv in H. cbn in H. lia.
Defined.

(** X24. [main] runs no subcommand unless its first argument is "final",
    "chunk" or "inspect": with no argument, or with any other one, it
    prints the usage and a line of error and exits with status 1. *)
Theorem main_without_subcommand
    (finalCmd chunkCmd inspectCmd : list string -> Act unit)
    (Args : list string) :
  len Args < 2
  \/ (nth 1 Args "" <> "final" /\ nth 1 Args "" <> "chunk"
      /\ nth 1 Args "" <> "inspect") ->
  main finalCmd chunkCmd inspectCmd Args
  = (usageText
     ++ (if len Args <? 2 then "ERROR: No subcommand is provided"
         else "Unknown subcommand " ++ nth 1 Args "") ++ nl,
     [], Exited 1).
Proof.
  intros H. unfold main. destruct (Z.ltb_spec (len Args) 2) as [Hl|Hl].
  - reflexivity.
  - destruct H as [H|(H1 & H2 & H3)]; [lia|].
    apply String.eqb_neq in H1, H2, H3. cbv zeta. rewrite H1, H2, H3.
    unfold usageText. change usage with (fst usage, Returned tt).
    cbn [andThen Print Exit ofRun fst].
    now rewrite append_nil_r, append_assoc.
Qed.

Lemma main_without_subcommand_witness :
  main (fun _ => done tt) (fun _ => done tt) (fun _ => done tt)
    ["markut"; "render"; "-csv"; "markers.csv"]
  = (usageText ++ "Unknown subcommand render" ++ nl, [], Exited 1).
Proof.
  apply (main_without_subcommand (fun _ => done tt) (fun _ => done tt)
           (fun _ => done tt) ["markut"; "render"; "-csv"; "markers.csv"]).
  right. repeat split; discriminate.
Defined.
